(** * abi-guesser-py: a shallow embedding of [abi_guesser/lib.py]

    The development follows the source file top to bottom: the Python
    primitives the code relies on (slices, [str] methods, exceptions), the
    offset and length probes, the consistency reducer, the backtracking
    decoder, the type merger, the type refiner and the top-level guesser.
    Python integers are [Z], byte strings are [list byte], type strings are
    [string].  The external ABI decoder ([eth_abi.decode]) and the UTF-8
    check of [bytes.decode] are parameters of the decoder and the refiner. *)

From Stdlib Require Import ZArith List String Ascii Bool Lia Arith.
From Stdlib Require Import Init.Byte ListSet DecimalString Sorted.
Import ListNotations.

Set Warnings "-register-all".

#[local] Open Scope string_scope.
#[local] Open Scope list_scope.
#[local] Open Scope Z_scope.

(** ** Python primitives *)

Module Py.

(** Exceptions the modelled code can raise. *)
Inductive exn : Type :=
| TypeError
| ValueError
| IndexError
| AttributeError
| DecodingError.

(** Outcome of running a Python function: a value, a raised exception, or
    a recursion that did not finish within the given fuel. *)
Inductive res (A : Type) : Type :=
| Val (a : A)
| Exc (e : exn)
| OutOfFuel.

Arguments Val {A} a.
Arguments Exc {A} e.
Arguments OutOfFuel {A}.

Definition bind {A B : Type} (m : res A) (k : A -> res B) : res B :=
  match m with
  | Val a => k a
  | Exc e => Exc e
  | OutOfFuel => OutOfFuel
  end.

(** Normalisation of one slice bound against a sequence of length [n]. *)
Definition clamp (n i : Z) : Z :=
  if i <? 0 then Z.max (i + n) 0 else Z.min i n.

(** [xs[a:b]] for a list. *)
Definition slice {A : Type} (xs : list A) (a b : Z) : list A :=
  let n := Z.of_nat (List.length xs) in
  let a' := clamp n a in
  let b' := clamp n b in
  firstn (Z.to_nat (b' - a')) (skipn (Z.to_nat a') xs).

(** [len(xs)] *)
Definition len {A : Type} (xs : list A) : Z := Z.of_nat (List.length xs).

(** [s.startswith(p)] *)
Definition startswith (s p : string) : bool := String.prefix p s.

(** [s.endswith(p)] *)
Definition endswith (s p : string) : bool :=
  let n := String.length s in
  let k := String.length p in
  (k <=? n)%nat && String.eqb (String.substring (n - k) k s) p.

(** [s[:-2]] *)
Definition drop_last2 (s : string) : string :=
  String.substring 0 (String.length s - 2) s.

(** [s[1:-1]] *)
Definition strip_ends (s : string) : string :=
  String.substring 1 (String.length s - 2) s.

(** [s.split(c)] for a one-character separator. *)
Fixpoint split (c : ascii) (s : string) : list string :=
  match s with
  | EmptyString => [EmptyString]
  | String a rest =>
      if Ascii.eqb a c then EmptyString :: split c rest
      else match split c rest with
           | [] => [String a EmptyString]
           | w :: ws => String a w :: ws
           end
  end.

(** [sep.join(parts)] *)
Definition join (sep : string) (parts : list string) : string :=
  String.concat sep parts.

(** [s.format()] with no arguments: doubled braces are unescaped and any
    other brace raises, a closing one as a lone brace, an opening one as a
    replacement field that has no argument to take (or as a lone brace;
    the two kinds of exception are not told apart here). *)
Fixpoint format (s : string) : res string :=
  match s with
  | EmptyString => Val EmptyString
  | String "{" (String "{" rest) => bind (format rest) (fun r => Val (String "{" r))
  | String "}" (String "}" rest) => bind (format rest) (fun r => Val (String "}" r))
  | String "{" _ => Exc IndexError
  | String "}" _ => Exc ValueError
  | String a rest => bind (format rest) (fun r => Val (String a r))
  end.

(** [set(xs)] as a duplicate-free list. *)
Definition set_of (xs : list string) : list string := nodup string_dec xs.

(** [x in xs] *)
Definition mem (x : string) (xs : list string) : bool :=
  existsb (String.eqb x) xs.

(** Truthiness of an optional string and of an optional list. *)
Definition truthy_str (o : option string) : bool :=
  match o with
  | Some s => negb (String.eqb s "")
  | None => false
  end.

Definition truthy_list {A : Type} (o : option (list A)) : bool :=
  match o with
  | Some (_ :: _) => true
  | _ => false
  end.

End Py.

Import Py.

Notation "x <- m ;; k" := (Py.bind m (fun x => k))
  (at level 61, m at next level, right associativity).

(** ** Byte strings and words *)

Definition bytes := list byte.

Definition byte_val (b : byte) : Z := Z.of_N (Byte.to_N b).

(** [int(encode_hex(word), 16)]: the big-endian value of a byte string. *)
Definition int_of_bytes (word : bytes) : Z :=
  fold_left (fun acc b => acc * 256 + byte_val b) word 0.

(** ** Probes (lib.py, lines 22-65) *)

Definition is_safe_number (val : Z) : bool := val <? 2 ^ 53 - 1.

Definition try_parse_offset (data : bytes) (pos : Z) : option Z :=
  let word := slice data pos (pos + 32) in
  if len word =? 0 then None
  else
    let big_offset := int_of_bytes word in
    if negb (is_safe_number big_offset) then None
    else
      let offset := big_offset in
      if (offset <=? pos) || (offset >=? len data) || negb (offset mod 32 =? 0)
      then None
      else Some offset.

Definition try_parse_length (data : bytes) (offset : Z) : option Z :=
  let word := slice data offset (offset + 32) in
  if len word =? 0 then None
  else
    let big_length := int_of_bytes word in
    if negb (is_safe_number big_length) then None
    else
      let length := big_length in
      if offset + 32 + length >? len data then None
      else Some length.

(** ** Formatting (lib.py, lines 79-81) *)

Definition format_params (params : list string) : string := join "," params.

(** ** Consistency reducer (lib.py, lines 83-128) *)

(** [[p.split(',')[i] for p in params]]; an index out of range raises. *)
Fixpoint column (i : nat) (params : list string) : res (list string) :=
  match params with
  | [] => Val []
  | p :: rest =>
      match nth_error (split "," p) i with
      | None => Exc IndexError
      | Some c => cs <- column i rest ;; Val (c :: cs)
      end
  end.

(** The component loop of the tuple branch (lines 97-102); [None] is the
    early [return None]. *)
Fixpoint reduce_components (rec : list string -> res (option string))
    (params : list string) (idxs : list nat) : res (option (list string)) :=
  match idxs with
  | [] => Val (Some [])
  | i :: rest =>
      col <- column i params ;;
      component <- rec col ;;
      match component with
      | Some c =>
          if String.eqb c "" then Val None
          else
            more <- reduce_components rec params rest ;;
            match more with
            | Some cs => Val (Some (c :: cs))
            | None => Val None
            end
      | None => Val None
      end
  end.

(** Lines 117-128: the set of all siblings, with the sentinel replaced. *)
Definition consistency_checker (params : list string) : list string :=
  let checker := set_of params in
  if mem "()[]" checker
  then set_add string_dec "bytes" (set_remove string_dec "()[]" checker)
  else checker.

Fixpoint generate_consistent_result_fuel (fuel : nat) (params : list string)
    : res (option string) :=
  match fuel with
  | O => OutOfFuel
  | S fuel' =>
      match params with
      | [] => Val None
      | p0 :: _ =>
          if startswith p0 "tuple" && negb (String.eqb p0 "tuple") then
            if existsb (fun p => negb (startswith p "tuple")) params then Val None
            else if negb (List.length
                            (nodup Nat.eq_dec
                               (map (fun p => List.length (split "," p)) params))
                          =? 1)%nat
            then Val None
            else
              components <- reduce_components
                              (generate_consistent_result_fuel fuel') params
                              (seq 0 (List.length (split "," p0))) ;;
              match components with
              | None => Val None
              | Some cs => Val (Some ("(" ++ format_params cs ++ ")")%string)
              end
          else if endswith p0 "[]" then
            if existsb (fun p => negb (endswith p "[]")) params then Val None
            else
              array_children <- generate_consistent_result_fuel fuel'
                                  (map drop_last2 params) ;;
              match array_children with
              | None => Val None
              | Some c =>
                  if String.eqb c "" then Val None
                  else r <- format c ;; Val (Some (r ++ "[]")%string)
              end
          else
            let checker := consistency_checker params in
            if negb (List.length checker =? 1)%nat then Val None
            else Val (hd_error checker)
      end
  end.

(** Every recursive call is on a list whose first element is shorter than
    the first element of the argument, except in the tuple branch when no
    element has a comma: there the call is on the argument itself and the
    Python recursion never returns.  [OutOfFuel] stands for that case. *)
Definition generate_consistent_result (params : list string)
    : res (option string) :=
  generate_consistent_result_fuel (S (String.length (hd "" params))) params.

(** ** Decoded values and slot descriptors *)

(** What [eth_abi.decode] hands back: byte strings, sequences (tuples and
    arrays), and the integers obtained when a byte string is iterated. *)
Inductive value : Type :=
| VBytes (b : bytes)
| VSeq (vs : list value)
| VInt (n : Z).

(** An entry of [collected_params]: a type string, or a dict with an
    ['offset'] and possibly a ['length']. *)
Inductive slot : Type :=
| Static (ty : string)
| Dynamic (offset : Z) (length : option Z).

(** [next((v for idx, v in enumerate(collected_params) if idx > i and
    isinstance(v, dict)), None)], on the slots after position [i]. *)
Fixpoint next_dynamic_param (later : list slot) : option (Z * option Z) :=
  match later with
  | [] => None
  | Static _ :: rest => next_dynamic_param rest
  | Dynamic o l :: _ => Some (o, l)
  end.

(** ** Choice among array interpretations (lib.py, lines 325-331) *)

(** [[res for res in all_results if generate_consistent_result(res)]] *)
Fixpoint valid_results (all_results : list (list string))
    : res (list (list string)) :=
  match all_results with
  | [] => Val []
  | r :: rest =>
      c <- generate_consistent_result r ;;
      more <- valid_results rest ;;
      Val (if truthy_str c then r :: more else more)
  end.

(** [list.sort(key=len)] is stable: an element stays before the later
    elements that are not shorter than it. *)
Fixpoint insert_by_len (r : list string) (sorted : list (list string))
    : list (list string) :=
  match sorted with
  | [] => [r]
  | x :: rest =>
      if (List.length r <=? List.length x)%nat then r :: sorted
      else x :: insert_by_len r rest
  end.

Definition sort_by_len (rs : list (list string)) : list (list string) :=
  fold_right insert_by_len [] rs.

Definition choose_array_type (all_results : list (list string))
    : res (option string) :=
  valid <- valid_results all_results ;;
  match sort_by_len valid with
  | [] => Val None
  | [] :: _ => Exc IndexError
  | (t :: _) :: _ => Val (Some (t ++ "[]")%string)
  end.

(** ** Well-formed-tuple decoder (lib.py, lines 133-336) *)

(** The test of lines 263-268: the region has exactly [length] bytes, or it
    is [length] bytes right-padded with zeros to the next word. *)
Definition is_bytestring (dynamic_data : bytes) (length : Z) : bool :=
  (length =? len dynamic_data)
  || ((len dynamic_data mod 32 =? 0)
      && (len dynamic_data - length <? 32)
      && (len (filter (fun v => negb (byte_val v =? 0))
                 (slice dynamic_data length (len dynamic_data))) =? 0)).

Section Decoder.

(** [decode_abi_data], that is [eth_abi.decode]: [None] when it raises. *)
Variable decode_abi_data : list string -> bytes -> option (list value).

Definition frame : Type :=
  nat -> bytes -> Z -> list slot -> Z -> option Z -> option bool
  -> res (option (list string)).

(** Lines 152-159. *)
Definition test_params (data : bytes) (params : option (list string)) : bool :=
  match params with
  | Some (p :: ps) =>
      match decode_abi_data (p :: ps) data with
      | Some _ => true
      | None => false
      end
  | _ => false
  end.

(** A recursive call followed by [if test_params(fragment): return
    fragment]; [None] means that the caller goes on. *)
Definition gated (data : bytes) (fragment : res (option (list string)))
    : res (option (list string)) :=
  f <- fragment ;;
  Val (if test_params data f then f else None).

Section Frame.

(** The recursive calls of the frame. *)
Variable rec : frame.

(** Lines 306-321, the loop over the element windows; the outer [None]
    is the [return None] of line 314.  [n] bounds the iterations. *)
Fixpoint static_parse (n : nat) (depth : nat) (dynamic_data : bytes)
    (words_per_element count elem_idx : Z) (static_parse_params : list string)
    : res (option (list string)) :=
  if elem_idx <? count then
    match n with
    | O => OutOfFuel
    | S n' =>
        params <- rec (S depth)
                    (slice dynamic_data (elem_idx * words_per_element * 32)
                       ((elem_idx + 1) * words_per_element * 32))
                    0 [] (words_per_element * 32) None None ;;
        match params with
        | Some (p :: ps) =>
            static_parse n' depth dynamic_data words_per_element count
              (elem_idx + 1)
              (static_parse_params ++
               [if len (p :: ps) >? 1
                then ("(" ++ join "," (p :: ps) ++ ")")%string
                else p])
        | _ => Val None
        end
    end
  else Val (Some static_parse_params).

(** Lines 275-323 for a slot whose length is [length]: the candidate
    element lists of the three array interpretations; the outer [None] is
    the [return None] of line 314. *)
Definition array_interpretations (n : nat) (depth : nat) (dynamic_data : bytes)
    (length : Z) : res (option (list (list string))) :=
  decoded_assuming_length <-
    rec (S depth) dynamic_data 0 [] (len dynamic_data) (Some length) (Some true) ;;
  let all_results :=
    match decoded_assuming_length with
    | Some (p :: ps) => [p :: ps]
    | _ => []
    end in
  decoded_assuming_no_length <-
    rec (S depth) dynamic_data 0 [] (len dynamic_data) (Some length) (Some false) ;;
  let all_results :=
    match decoded_assuming_no_length with
    | Some (p :: ps) => all_results ++ [p :: ps]
    | _ => all_results
    end in
  let num_words := len dynamic_data / 32 in
  let words_per_element := num_words / length in
  static_parse_params <-
    static_parse n depth dynamic_data words_per_element length 0 [] ;;
  match static_parse_params with
  | None => Val None
  | Some sp => Val (Some (all_results ++ [sp]))
  end.

(** Lines 275-331. *)
Definition resolve_array (n : nat) (depth : nat) (dynamic_data : bytes)
    (length : Z) : res (option string) :=
  all_results <- array_interpretations n depth dynamic_data length ;;
  match all_results with
  | None => Val None
  | Some all_results => choose_array_type all_results
  end.

(** Lines 243-331 for one dict of [collected_params]: the type to
    append, or [None] for [return None]. *)
Definition resolve_dynamic (n : nat) (depth : nat) (data : bytes)
    (offset : Z) (maybe_dynamic_element_len : option Z)
    (next_dynamic : option (Z * option Z)) : res (option string) :=
  let dynamic_data_start :=
    offset + match maybe_dynamic_element_len with Some _ => 32 | None => 0 end in
  let dynamic_data_end :=
    match next_dynamic with
    | None => len data
    | Some (o, _) => o
    end in
  let dynamic_data := slice data dynamic_data_start dynamic_data_end in
  match maybe_dynamic_element_len with
  | None =>
      params <- rec (S depth) dynamic_data 0 [] (len dynamic_data) None None ;;
      match params with
      | Some (p :: ps) => Val (Some ("(" ++ join "," (p :: ps) ++ ")")%string)
      | _ =>
          (* no [continue]: the tests below run with a length of [None] *)
          if len dynamic_data mod 32 =? 0 then Exc TypeError
          else
            _ <- rec (S depth) dynamic_data 0 [] (len dynamic_data) None (Some true) ;;
            _ <- rec (S depth) dynamic_data 0 [] (len dynamic_data) None (Some false) ;;
            Exc TypeError
      end
  | Some length =>
      if length =? 0 then Val (Some "()[]")
      else if is_bytestring dynamic_data length then Val (Some "bytes")
      else resolve_array n depth dynamic_data length
  end.

(** Lines 221-331, the loop over [collected_params]. *)
Fixpoint resolve_all (n : nat) (depth : nat) (data : bytes)
    (remaining : list slot) (final_params : list string)
    : res (option (list string)) :=
  match remaining with
  | [] => Val (Some final_params)
  | Static param :: later =>
      resolve_all n depth data later (final_params ++ [param])
  | Dynamic offset length :: later =>
      t <- resolve_dynamic n depth data offset length (next_dynamic_param later) ;;
      match t with
      | None => Val None
      | Some ty => resolve_all n depth data later (final_params ++ [ty])
      end
  end.

(** Lines 217-336. *)
Definition resolve_tail (n : nat) (depth : nat) (data : bytes)
    (collected_params : list slot) (expected_length : option Z)
    : res (option (list string)) :=
  if match expected_length with
     | Some e => negb (len collected_params =? e)
     | None => false
     end
  then Val None
  else
    final_params <- resolve_all n depth data collected_params [] ;;
    match final_params with
    | None => Val None
    | Some fp => Val (if test_params data (Some fp) then Some fp else None)
    end.

Definition allows (is_dynamic_array_element : option bool) (b : bool) : bool :=
  match is_dynamic_array_element with
  | None => true
  | Some d => Bool.eqb d b
  end.

(** Lines 161-336: one activation of [decode_well_formed_tuple]. *)
Definition decode_frame (n : nat) (depth : nat) (data : bytes)
    (param_idx : Z) (collected_params : list slot)
    (end_of_static_calldata : Z) (expected_length : option Z)
    (is_dynamic_array_element : option bool) : res (option (list string)) :=
  let param_offset := param_idx * 32 in
  if param_offset <? end_of_static_calldata then
    dyn <-
      match try_parse_offset data param_offset with
      | None => Val None
      | Some maybe_offset =>
          with_length <-
            match try_parse_length data maybe_offset with
            | Some maybe_length =>
                if allows is_dynamic_array_element true then
                  gated data
                    (rec (S depth) data (param_idx + 1)
                       (collected_params ++ [Dynamic maybe_offset (Some maybe_length)])
                       (Z.min end_of_static_calldata maybe_offset)
                       expected_length is_dynamic_array_element)
                else Val None
            | None => Val None
            end ;;
          match with_length with
          | Some fragment => Val (Some fragment)
          | None =>
              if allows is_dynamic_array_element false then
                gated data
                  (rec (S depth) data (param_idx + 1)
                     (collected_params ++ [Dynamic maybe_offset None])
                     (Z.min end_of_static_calldata maybe_offset)
                     expected_length is_dynamic_array_element)
              else Val None
          end
      end ;;
    match dyn with
    | Some fragment => Val (Some fragment)
    | None =>
        match is_dynamic_array_element with
        | Some _ => Val None
        | None =>
            gated data
              (rec depth data (param_idx + 1)
                 (collected_params ++ [Static "bytes32"])
                 end_of_static_calldata expected_length
                 is_dynamic_array_element)
        end
    end
  else resolve_tail n depth data collected_params expected_length.

End Frame.

Fixpoint decode_well_formed_tuple (fuel : nat) : frame :=
  match fuel with
  | O => fun _ _ _ _ _ _ _ => OutOfFuel
  | S fuel' => decode_frame (decode_well_formed_tuple fuel') fuel'
  end.

End Decoder.

(** ** Activations of the decoder

    The head phase (lines 163-213) calls the decoder on the same data with
    one more collected slot: a slot with a length, a slot without one, or
    the static type.  [head_call] relates the position, the collected slots
    and the end of the static region of a frame to those of such a call. *)

Inductive head_call (data : bytes) (is_dyn : option bool)
    : Z -> list slot -> Z -> Z -> list slot -> Z -> Prop :=
| call_with_length (param_idx : Z) (collected : list slot) (eos : Z)
    (maybe_offset maybe_length : Z) :
    param_idx * 32 < eos ->
    try_parse_offset data (param_idx * 32) = Some maybe_offset ->
    try_parse_length data maybe_offset = Some maybe_length ->
    allows is_dyn true = true ->
    head_call data is_dyn param_idx collected eos
      (param_idx + 1) (collected ++ [Dynamic maybe_offset (Some maybe_length)])
      (Z.min eos maybe_offset)
| call_without_length (param_idx : Z) (collected : list slot) (eos : Z)
    (maybe_offset : Z) :
    param_idx * 32 < eos ->
    try_parse_offset data (param_idx * 32) = Some maybe_offset ->
    allows is_dyn false = true ->
    head_call data is_dyn param_idx collected eos
      (param_idx + 1) (collected ++ [Dynamic maybe_offset None])
      (Z.min eos maybe_offset)
| call_static (param_idx : Z) (collected : list slot) (eos : Z) :
    param_idx * 32 < eos ->
    is_dyn = None ->
    head_call data is_dyn param_idx collected eos
      (param_idx + 1) (collected ++ [Static "bytes32"]) eos.

(** The frames of one region: the decoder enters a region at position 0
    with nothing collected, and goes on by head calls. *)
Inductive activation (data : bytes) (is_dyn : option bool)
    : Z -> list slot -> Z -> Prop :=
| act_enter (eos : Z) : activation data is_dyn 0 [] eos
| act_call (param_idx : Z) (collected : list slot) (eos : Z)
    (param_idx' : Z) (collected' : list slot) (eos' : Z) :
    activation data is_dyn param_idx collected eos ->
    head_call data is_dyn param_idx collected eos param_idx' collected' eos' ->
    activation data is_dyn param_idx' collected' eos'.

(** ** Type merger (lib.py, lines 339-378) *)

(** [[merge_types([t[i] for t in component_types]) for i in range(...)]] *)
Fixpoint merge_columns (rec : list string -> res string)
    (component_types : list (list string)) (idxs : list nat)
    : res (list string) :=
  match idxs with
  | [] => Val []
  | i :: rest =>
      col <- (fix pick (cts : list (list string)) : res (list string) :=
                match cts with
                | [] => Val []
                | t :: more =>
                    match nth_error t i with
                    | None => Exc IndexError
                    | Some c => cs <- pick more ;; Val (c :: cs)
                    end
                end) component_types ;;
      m <- rec col ;;
      ms <- merge_columns rec component_types rest ;;
      Val (m :: ms)
  end.

(** Lines 368-378. *)
Definition merge_plain (types : list string) : string :=
  let type_checker := set_of types in
  if (List.length type_checker =? 1)%nat then hd "" types
  else if mem "bytes" type_checker then "bytes"
  else if mem "uint256" type_checker then "uint256"
  else "bytes32".

Fixpoint merge_types (fuel : nat) (types : list string) : res string :=
  match fuel with
  | O => OutOfFuel
  | S fuel' =>
      match types with
      | [] => Val "()"
      | [t] => if String.eqb t "" then Exc ValueError else Val t
      | _ =>
          let base_type_checker :=
            set_of (map (fun t => hd "" (split "[" t)) types) in
          if (List.length base_type_checker =? 1)%nat then
            let base_type := hd "" base_type_checker in
            if String.eqb base_type "tuple" then
              let component_types :=
                map (fun t => split "," (strip_ends t))
                    (filter (fun t => negb (String.eqb t "tuple")) types) in
              match component_types with
              | [] => Val "()"
              | first :: _ =>
                  if negb (List.length
                             (nodup Nat.eq_dec (map (@List.length string) component_types))
                           =? 1)%nat
                  then Val "()"
                  else
                    merged_types <- merge_columns (merge_types fuel') component_types
                                      (seq 0 (List.length first)) ;;
                    Val ("(" ++ format_params merged_types ++ ")")%string
              end
            else if String.eqb base_type "array" then
              let children_types :=
                map drop_last2 (filter (fun t => endswith t "[]") types) in
              m <- merge_types fuel' children_types ;;
              Val (m ++ "[]")%string
            else Val (merge_plain types)
          else Val (merge_plain types)
      end
  end.

(** Each recursive call of [merge_types] is on strings shorter than the
    longest of its argument, so this much fuel lets it finish. *)
Definition merge_fuel (types : list string) : nat :=
  S (fold_right Nat.max 0%nat (map String.length types)).

(** ** Type refiner (lib.py, lines 382-437) *)

(** [b.lstrip(b'\x00')] and the two counters of lines 72-77. *)
Fixpoint lstrip_zeros (arr : bytes) : bytes :=
  match arr with
  | [] => []
  | b :: rest => if byte_val b =? 0 then lstrip_zeros rest else arr
  end.

Definition count_leading_zeros (arr : bytes) : Z :=
  len arr - len (lstrip_zeros arr).

Definition count_trailing_zeros (arr : bytes) : Z :=
  len arr - len (rev (lstrip_zeros (rev arr))).

(** [str(n)] for an integer. *)
Definition str_of_int (n : Z) : string := NilZero.string_of_int (Z.to_int n).

(** The items obtained by iterating a decoded value ([zip] does it). *)
Definition items (v : value) : res (list value) :=
  match v with
  | VSeq vs => Val vs
  | VBytes b => Val (map (fun x => VInt (byte_val x)) b)
  | VInt _ => Exc TypeError
  end.

(** [len(val)] *)
Definition value_len (v : value) : res Z :=
  match v with
  | VSeq vs => Val (len vs)
  | VBytes b => Val (len b)
  | VInt _ => Exc TypeError
  end.

Section Refiner.

(** Whether [val.decode('utf-8')] succeeds. *)
Variable utf8_valid : bytes -> bool.

(** Lines 406-424. *)
Definition infer_bytes32 (val : value) : res string :=
  match val with
  | VBytes b =>
      let leading_zeros := count_leading_zeros b in
      let trailing_zeros := count_trailing_zeros b in
      if (12 <=? leading_zeros) && (leading_zeros <=? 17) then Val "address"
      else if leading_zeros >? 16 then Val "uint256"
      else if trailing_zeros >? 0
      then Val ("bytes" ++ str_of_int (32 - trailing_zeros))%string
      else Val "bytes32"
  | VSeq _ => Exc AttributeError
  | VInt _ => Exc TypeError
  end.

(** Lines 427-433. *)
Definition infer_bytes (val : value) : res string :=
  match val with
  | VBytes b => Val (if utf8_valid b then "string" else "bytes")
  | _ => Exc AttributeError
  end.

Fixpoint infer_types (fuel : nat) (params : list string) (vals : value)
    : res (list string) :=
  match fuel with
  | O => OutOfFuel
  | S fuel' =>
      vs <- items vals ;;
      (fix each (pairs : list (string * value)) : res (list string) :=
         match pairs with
         | [] => Val []
         | (param, val) :: rest =>
             t <-
               (if startswith param "(" && endswith param ")" then
                  let component_types := split "," (strip_ends param) in
                  inferred_types <- infer_types fuel' component_types val ;;
                  Val ("(" ++ join "," inferred_types ++ ")")%string
                else if endswith param "[]"
                        || (startswith param "[" && endswith param "]") then
                  let child_type :=
                    if endswith param "[]" then drop_last2 param
                    else strip_ends param in
                  k <- value_len val ;;
                  let repeat_child_types := repeat child_type (Z.to_nat k) in
                  inferred_child_types <- infer_types fuel' repeat_child_types val ;;
                  merged_child_type <- merge_types (merge_fuel inferred_child_types)
                                         inferred_child_types ;;
                  Val (merged_child_type ++ "[]")%string
                else if String.eqb param "bytes32" then infer_bytes32 val
                else if String.eqb param "bytes" then infer_bytes val
                else Val param) ;;
             ts <- each rest ;;
             Val (t :: ts)
         end) (combine params vs)
  end.

End Refiner.

(** ** Top-level guesser (lib.py, lines 442-449) *)

Definition guess_abi_encoded_data
    (decode_abi_data : list string -> bytes -> option (list value))
    (utf8_valid : bytes -> bool) (fuel : nat) (data_bytes : bytes)
    : res (option (list string)) :=
  let data := data_bytes in
  params <- decode_well_formed_tuple decode_abi_data fuel 0%nat data 0 []
              (len data) None None ;;
  match params with
  | None => Val None
  | Some ps =>
      match decode_abi_data ps data with
      | None => Exc DecodingError
      | Some vals =>
          r <- infer_types utf8_valid fuel ps (VSeq vals) ;;
          Val (Some r)
      end
  end.

(** ** Candidate types

    The decoder writes its types in the grammar
    [T ::= "bytes32" | "bytes" | "()[]" | "(" T ("," T)* ")" | T "[]"]. *)

Inductive candidate : string -> Prop :=
| cand_bytes32 : candidate "bytes32"
| cand_bytes : candidate "bytes"
| cand_sentinel : candidate "()[]"
| cand_tuple (ts : list string) :
    candidates ts -> candidate ("(" ++ join "," ts ++ ")")%string
| cand_array (t : string) :
    candidate t -> candidate (t ++ "[]")%string
with candidates : list string -> Prop :=
| cands_one (t : string) : candidate t -> candidates [t]
| cands_more (t : string) (ts : list string) :
    candidate t -> candidates ts -> candidates (t :: ts).

Scheme candidate_mut := Induction for candidate Sort Prop
  with candidates_mut := Induction for candidates Sort Prop.

(** No brace occurs in the string. *)
Fixpoint no_brace (s : string) : bool :=
  match s with
  | EmptyString => true
  | String a rest =>
      negb (Ascii.eqb a "{") && negb (Ascii.eqb a "}") && no_brace rest
  end.

(** A string the reducer treats by its array and set branches only, and
    whose [format()] is the string itself. *)
Definition plain (s : string) : Prop :=
  no_brace s = true /\ startswith s "tuple" = false.

(** The first character of a candidate type. *)
Definition starts_paren_or_b (s : string) : Prop :=
  exists (c : ascii) (r : string), s = String c r /\ (c = "("%char \/ c = "b"%char).

(** The order [sort_by_len] sorts by. *)
Definition shorter_eq (a b : list string) : Prop :=
  (List.length a <= List.length b)%nat.

(** The static entries of [collected_params] are candidate types. *)
Definition static_candidates (collected : list slot) : Prop :=
  forall ty, In (Static ty) collected -> candidate ty.

(** What the recursive calls are assumed to return. *)
Definition returns_candidates (rec : frame) : Prop :=
  forall depth data param_idx collected eos expected is_dyn l,
    static_candidates collected ->
    rec depth data param_idx collected eos expected is_dyn = Val (Some l) ->
    Forall candidate l.

(** [r'] is the outcome [r], unless the run behind [r] was cut short. *)
Definition finished_as {A : Type} (r r' : res A) : Prop :=
  r = OutOfFuel \/ r' = r.

(** The run behind [r] was not cut short. *)
Definition finishes {A : Type} (r : res A) : Prop := r <> OutOfFuel.

(** Every offset among the collected slots is positive. *)
Definition positive_offsets (collected : list slot) : Prop :=
  forall offset length, In (Dynamic offset length) collected -> 0 < offset.

(** Fuel with which the decoder finishes on a region of [s] bytes: a frame
    makes at most [s + 1] head calls before it resolves its slots, and a
    region inside it is shorter. *)
Fixpoint enough_fuel (s : nat) : nat :=
  match s with
  | O => 1
  | S s' => S (S s) + Nat.max (enough_fuel s') (S s')
  end.

(** ** Concrete inputs *)

Definition byte_of_Z (z : Z) : byte :=
  match Byte.of_N (Z.to_N (z mod 256)) with
  | Some b => b
  | None => x00
  end.

(** The [n]-byte big-endian encoding of [v]. *)
Fixpoint be_bytes (n : nat) (v : Z) : bytes :=
  match n with
  | O => []
  | S k => be_bytes k (v / 256) ++ [byte_of_Z v]
  end.

(** A 32-byte word holding the integer [v]. *)
Definition word (v : Z) : bytes := be_bytes 32 v.

(** A byte string right-padded with zeros to one word. *)
Definition padded (b : bytes) : bytes := b ++ repeat x00 (32 - List.length b).

(** A word with every byte set. *)
Definition word_ff : bytes := repeat xff 32.

(** Equality tests on type lists and byte strings. *)
Fixpoint list_eqb {A : Type} (eqb : A -> A -> bool) (a b : list A) : bool :=
  match a, b with
  | [], [] => true
  | x :: a', y :: b' => eqb x y && list_eqb eqb a' b'
  | _, _ => false
  end.

Definition types_eqb : list string -> list string -> bool := list_eqb String.eqb.

Definition bytes_eqb : bytes -> bytes -> bool := list_eqb Byte.eqb.

(** A stand-in for the ABI decoder that accepts every type list and hands
    back one empty byte string per type. *)
Definition lenient_decoder (types : list string) (data : bytes)
    : option (list value) :=
  Some (map (fun _ => VBytes []) types).

(** The encoding of [((ff..ff, 0x80),)] for the signature
    [f(((bytes32,bytes)))]: a tuple whose only member is a dynamic tuple. *)
Definition nested_tuple_data : bytes :=
  word 32 ++ word 32 ++ word_ff ++ word 64 ++ word 1 ++ padded [x80].

(** A decoder that decodes the nested tuple and its two inner regions as
    the ABI prescribes, and behaves as [other] everywhere else. *)
Definition nested_tuple_decoder
    (other : list string -> bytes -> option (list value))
    (types : list string) (data : bytes) : option (list value) :=
  let inner := [VBytes word_ff; VBytes [x80]] in
  if types_eqb types ["bytes32"; "bytes"]
     && bytes_eqb data (slice nested_tuple_data 64 192)
  then Some inner
  else if types_eqb types ["(bytes32,bytes)"]
          && bytes_eqb data (slice nested_tuple_data 32 192)
  then Some [VSeq inner]
  else if types_eqb types ["((bytes32,bytes))"]
          && bytes_eqb data nested_tuple_data
  then Some [VSeq [VSeq inner]]
  else other types data.

(** The tail of the encoding of [["A", "B"]] as a [string[]], after its
    length word, and the whole encoding. *)
Definition string_array_region : bytes :=
  word 64 ++ word 128 ++ word 1 ++ padded [x41] ++ word 1 ++ padded [x42].

Definition string_array_data : bytes :=
  word 32 ++ word 2 ++ string_array_region.

(** The encoding of [("B", [("A", 1, "B")])]: the head words name the
    tails in reverse order.  The first head word points at the byte string
    [b"B"] at 128, the second at an array at 64 whose single element is the
    three words from 96 on, so that the byte string lies inside the
    element. *)
Definition swapped_tails_data : bytes :=
  word 128 ++ word 64 ++ word 1 ++ padded [x41] ++ word 1 ++ padded [x42].

(** A decoder that decodes [swapped_tails_data] and the region of its array
    element as the ABI prescribes, and behaves as [other] everywhere
    else. *)
Definition swapped_tails_decoder
    (other : list string -> bytes -> option (list value))
    (types : list string) (data : bytes) : option (list value) :=
  let element := [VBytes (padded [x41]); VBytes (word 1); VBytes (padded [x42])] in
  if types_eqb types ["bytes32"; "bytes32"; "bytes32"]
     && bytes_eqb data (slice swapped_tails_data 96 192)
  then Some element
  else if types_eqb types ["bytes"; "(bytes32,bytes32,bytes32)[]"]
          && bytes_eqb data swapped_tails_data
  then Some [VBytes [x42]; VSeq [VSeq element]]
  else other types data.

(** What the ABI decoder does with whole words: a buffer of [k] words
    decodes as [k] values of type [bytes32]. *)
Definition accepts_static_words
    (decode_abi_data : list string -> bytes -> option (list value)) : Prop :=
  forall (k : nat) (data : bytes),
    (1 <= k)%nat -> len data = 32 * Z.of_nat k ->
    exists vals, decode_abi_data (repeat "bytes32" k) data = Some vals.

(** Two head words that name the same tail offset, followed by a word that
    is no length. *)
Definition twin_offset_data : bytes := word 64 ++ word 64 ++ word_ff.

(** ** Hex encoding, chunks and the fragment guesser
    (lib.py, lines 16-17, 68-69 and 451-463) *)

(** One hexadecimal digit, as [bytes.hex] writes it. *)
Definition hex_digit (d : Z) : ascii :=
  match String.get (Z.to_nat d) "0123456789abcdef" with
  | Some c => c
  | None => "0"%char
  end.

(** [data.hex()] *)
Fixpoint bytes_hex (data : bytes) : string :=
  match data with
  | [] => EmptyString
  | b :: rest =>
      String (hex_digit (byte_val b / 16))
        (String (hex_digit (byte_val b mod 16)) (bytes_hex rest))
  end.

Definition encode_hex (data : bytes) : string := ("0x" ++ bytes_hex data)%string.

(** [range(0, stop, step)] for a positive [step]; [k] bounds the number of
    elements. *)
Fixpoint range_from (k : nat) (i step stop : nat) : list nat :=
  match k with
  | O => []
  | S k' =>
      if (i <? stop)%nat then i :: range_from k' (i + step) step stop else []
  end.

(** [range(0, stop, step)]: a zero step raises, a negative one gives the
    empty range. *)
Definition py_range (stop : nat) (step : Z) : res (list nat) :=
  if step =? 0 then Exc ValueError
  else if step <? 0 then Val []
  else Val (range_from stop 0 (Z.to_nat step) stop).

(** [s[i:i+chunk_length]] for [0 <= i] and [0 <= chunk_length]. *)
Definition chunk_at (s : string) (chunk_length : Z) (i : nat) : string :=
  String.substring i (Z.to_nat chunk_length) s.

Definition chunk_string (s : string) (chunk_length : Z) : res (list string) :=
  idxs <- py_range (String.length s) chunk_length ;;
  Val (map (chunk_at s chunk_length) idxs).

(** [guess_fragment] on raw bytes, which [decode_hex] hands back as they
    are (lines 8-9). *)
Definition guess_fragment
    (decode_abi_data : list string -> bytes -> option (list value))
    (utf8_valid : bytes -> bool) (fuel : nat) (calldata : bytes)
    : res (option string) :=
  let data_bytes := calldata in
  match data_bytes with
  | [] => Val None
  | _ =>
      params <- guess_abi_encoded_data decode_abi_data utf8_valid fuel
                  (slice data_bytes 4 (len data_bytes)) ;;
      match params with
      | None => Val None
      | Some ps =>
          let hex := encode_hex (slice data_bytes 0 4) in
          let selector := String.substring 2 (String.length hex - 2) hex in
          Val (Some ("guessed_" ++ selector ++ "(" ++ format_params ps ++ ")")%string)
      end
  end.

(** ** Kinds of array elements *)

(** What a region decoded with [is_dynamic_array_element] set to [b]
    collects, and what its types look like. *)
Definition slot_kind (b : bool) (s : slot) : Prop :=
  match s with
  | Static _ => False
  | Dynamic _ (Some _) => b = true
  | Dynamic _ None => b = false
  end.

Definition element_kind (b : bool) (t : string) : Prop :=
  if b then t = "bytes" \/ exists x, t = (x ++ "[]")%string
  else exists params, t = ("(" ++ join "," params ++ ")")%string.

(** What a successful frame at position [param_idx] returns: as many types
    as it had collected, or a number of types whose last one still has its
    head word before [eos]; and the expected number, if one is given. *)
Definition arity_ok (param_idx : Z) (eos : Z) (expected : option Z)
    (l : list string) : Prop :=
  (len l = param_idx \/ (len l - 1) * 32 < eos) /\
  match expected with Some e => len l = e | None => True end.

(** * Properties *)

(** ** Slices and lengths *)

Lemma len_nonneg {A : Type} (xs : list A) : 0 <= len xs.
Proof. unfold len; lia. Qed.

Lemma len_slice {A : Type} (xs : list A) (a b : Z) :
  0 <= a -> a <= b ->
  len (slice xs a b) = Z.min b (len xs) - Z.min a (len xs).
Proof.
  intros Ha Hab. unfold len, slice, clamp.
  destruct (Z.ltb_spec a 0) as [?|_]; [lia|].
  destruct (Z.ltb_spec b 0) as [?|_]; [lia|].
  rewrite length_firstn, length_skipn. lia.
Qed.

Lemma len_app {A : Type} (xs ys : list A) : len (xs ++ ys) = len xs + len ys.
Proof. unfold len. rewrite length_app. lia. Qed.

(** ** Offset probe *)

(** What the probe tests, branch by branch. *)
Lemma try_parse_offset_some (data : bytes) (pos v : Z) :
  try_parse_offset data pos = Some v <->
  len (slice data pos (pos + 32)) <> 0 /\
  v = int_of_bytes (slice data pos (pos + 32)) /\
  v < 2 ^ 53 - 1 /\ pos < v /\ v < len data /\ v mod 32 = 0.
Proof.
  unfold try_parse_offset, is_safe_number.
  destruct (Z.eqb_spec (len (slice data pos (pos + 32))) 0) as [E|E].
  { split; [discriminate | intros [H _]; contradiction]. }
  set (w := int_of_bytes (slice data pos (pos + 32))).
  destruct (Z.ltb_spec w (2 ^ 53 - 1)) as [S|S]; cbn [negb].
  2:{ split; [discriminate | intros (_ & -> & ? & _); lia]. }
  destruct (Z.leb_spec w pos) as [P|P]; cbn [orb].
  { split; [discriminate | intros (_ & -> & _ & ? & _); lia]. }
  destruct (Z.geb_spec w (len data)) as [L|L]; cbn [orb].
  { split; [discriminate | intros (_ & -> & _ & _ & ? & _); lia]. }
  destruct (Z.eqb_spec (w mod 32) 0) as [M|M]; cbn [negb].
  - split.
    + intros [= <-]. repeat split; auto.
    + intros (_ & -> & _). reflexivity.
  - split; [discriminate | intros (_ & -> & _ & _ & _ & ?); contradiction].
Qed.

(** C5, as amended: at a word-aligned position, the probe returns [Some v]
    exactly when the buffer holds a full 32-byte word at [pos] whose
    big-endian value [v] is below [2^53 - 1], above [pos], below
    [len(data)] and a multiple of 32. *)
Theorem try_parse_offset_aligned (data : bytes) (pos v : Z) :
  0 <= pos -> pos mod 32 = 0 ->
  (try_parse_offset data pos = Some v <->
   pos + 32 <= len data /\
   v = int_of_bytes (slice data pos (pos + 32)) /\
   v < 2 ^ 53 - 1 /\ pos < v /\ v < len data /\ v mod 32 = 0).
Proof.
  intros Hpos Hal. rewrite try_parse_offset_some.
  pose proof (len_slice data pos (pos + 32) Hpos ltac:(lia)) as Hl.
  pose proof (len_nonneg data) as Hn.
  split.
  - intros (Hw & Hv & Hs & Hp & Hd & Hm). repeat split; auto.
    assert (pos = 32 * (pos / 32)) by (apply Z.div_exact; lia).
    assert (v = 32 * (v / 32)) by (apply Z.div_exact; lia).
    lia.
  - intros (Hw & Hv & Hs & Hp & Hd & Hm). repeat split; auto. lia.
Qed.

Lemma try_parse_offset_aligned_witness :
  try_parse_offset (word 32 ++ word 7) 0 = Some 32 <->
  0 + 32 <= len (word 32 ++ word 7) /\
  32 = int_of_bytes (slice (word 32 ++ word 7) 0 (0 + 32)) /\
  32 < 2 ^ 53 - 1 /\ 0 < 32 /\ 32 < len (word 32 ++ word 7) /\ 32 mod 32 = 0.
Proof.
  apply (try_parse_offset_aligned (word 32 ++ word 7) 0 32); [lia | reflexivity].
Defined.

(** C5, as stated, fails at an unaligned position: the slice taken at
    [pos = 31] of a 40-byte buffer has 9 bytes, and the probe parses it. *)
Lemma try_parse_offset_short_word :
  try_parse_offset (repeat x00 31 ++ be_bytes 9 32) 31 = Some 32 /\
  ~ (31 + 32 <= len (repeat x00 31 ++ be_bytes 9 32)).
Proof.
  split; [reflexivity | vm_compute; intros H; apply H; reflexivity].
Qed.

(** ** Type merger on array types *)

(** C6: the code at the input [["uint256[]", "bytes32[]"]].  The two base
    types differ, so the ['array'] branch is not entered and the result is
    the fallback ["bytes32"], while merging the stripped children gives
    ["uint256"]. *)
Theorem merge_types_arrays_fall_back (fuel : nat) :
  merge_types (S fuel) ["uint256[]"; "bytes32[]"] = Val "bytes32" /\
  merge_types (S fuel) (map drop_last2 ["uint256[]"; "bytes32[]"]) = Val "uint256".
Proof. split; reflexivity. Qed.

(** ** Consistency reducer on tuples *)

(** C7: the code at the siblings ["(bytes)"] and ["(()[])"].  Neither starts
    with ["tuple"], so the tuple branch is skipped, the two strings differ
    and the reducer fails. *)
Theorem reducer_rejects_paren_tuples :
  generate_consistent_result ["(bytes)"; "(()[])"] = Val None.
Proof. reflexivity. Qed.

(** ** Strings *)

Lemma substring_0_length (s : string) : substring 0 (String.length s) s = s.
Proof. induction s as [|a s IH]; cbn; [reflexivity | now rewrite IH]. Qed.

Lemma substring_0_split (n : nat) (s : string) :
  (n <= String.length s)%nat ->
  (substring 0 n s ++ substring n (String.length s - n) s)%string = s.
Proof.
  revert s. induction n as [|n IH]; intros s Hn.
  - rewrite Nat.sub_0_r, substring_0_length. now destruct s.
  - destruct s as [|a s]; cbn in Hn; [lia|].
    cbn. rewrite IH by lia. reflexivity.
Qed.

Lemma length_substring_0 (n : nat) (s : string) :
  String.length (substring 0 n s) = Nat.min n (String.length s).
Proof.
  revert s. induction n as [|n IH]; intros [|a s]; cbn; auto.
Qed.

Lemma endswith_length (s p : string) :
  endswith s p = true -> (String.length p <= String.length s)%nat.
Proof.
  unfold endswith. intros H. apply andb_prop in H as [H _].
  now apply Nat.leb_le.
Qed.

Lemma drop_last2_append (s : string) :
  endswith s "[]" = true -> (drop_last2 s ++ "[]")%string = s.
Proof.
  intros H. pose proof (endswith_length _ _ H) as Hl. cbn in Hl.
  unfold endswith in H. apply andb_prop in H as [_ H].
  apply String.eqb_eq in H. cbn [String.length] in H.
  unfold drop_last2.
  rewrite <- (substring_0_split (String.length s - 2) s) at 3 by lia.
  replace (String.length s - (String.length s - 2))%nat with 2%nat by lia.
  now rewrite H.
Qed.

Lemma length_drop_last2 (s : string) :
  String.length (drop_last2 s) = (String.length s - 2)%nat.
Proof. unfold drop_last2. rewrite length_substring_0. lia. Qed.

Lemma prefix_substring_0 (p : string) (n : nat) (s : string) :
  prefix p (substring 0 n s) = true -> prefix p s = true.
Proof.
  revert n s. induction p as [|c p IH]; intros n s H; [now destruct s|].
  destruct n as [|n], s as [|a s]; cbn in H; try discriminate.
  cbn. destruct (ascii_dec c a); [eauto | discriminate].
Qed.

Lemma no_brace_substring_0 (n : nat) (s : string) :
  no_brace s = true -> no_brace (substring 0 n s) = true.
Proof.
  revert s. induction n as [|n IH]; intros [|a s] H; cbn in *; auto.
  apply andb_prop in H as [Ha Hs]. rewrite Ha. cbn. auto.
Qed.

Lemma no_brace_append (a b : string) :
  no_brace (a ++ b) = no_brace a && no_brace b.
Proof.
  induction a as [|c a IH]; cbn; [reflexivity|].
  rewrite IH. now rewrite andb_assoc.
Qed.

Lemma format_no_brace (s : string) : no_brace s = true -> format s = Val s.
Proof.
  induction s as [|a s IH]; [reflexivity|].
  intros H. cbn [no_brace] in H.
  apply andb_prop in H as [H Hs]. apply andb_prop in H as [Ho Hc].
  specialize (IH Hs).
  destruct a as [[] [] [] [] [] [] [] []]; cbn in Ho, Hc; try discriminate;
    cbn [format]; rewrite IH; reflexivity.
Qed.

Lemma plain_drop_last2 (s : string) : plain s -> plain (drop_last2 s).
Proof.
  intros [Hb Ht]. split.
  - now apply no_brace_substring_0.
  - unfold startswith in *. destruct (prefix "tuple" (drop_last2 s)) eqn:E; auto.
    apply prefix_substring_0 in E. congruence.
Qed.

(** ** Consistency reducer on plain strings *)

Lemma hd_error_singleton {A : Type} (l : list A) (x : A) :
  List.length l = 1%nat -> In x l -> hd_error l = Some x.
Proof.
  destruct l as [|y [|z l]]; cbn; try discriminate.
  intros _ [->|[]]. reflexivity.
Qed.

Lemma consistency_checker_head (p0 : string) (rest : list string) :
  p0 <> "()[]" -> In p0 (consistency_checker (p0 :: rest)).
Proof.
  intros Hne. unfold consistency_checker, set_of.
  assert (In p0 (nodup string_dec (p0 :: rest))) as Hin
    by (apply nodup_In; now left).
  destruct (mem _ _); [|exact Hin].
  apply set_add_intro1. apply set_remove_3; auto.
Qed.

Lemma not_endswith_sentinel (p0 : string) :
  endswith p0 "[]" = false -> p0 <> "()[]".
Proof. intros H ->. discriminate. Qed.

(** The reducer's body for a first element that skips the tuple branch. *)
Lemma reducer_fuel_plain (fuel : nat) (p0 : string) (rest : list string) :
  startswith p0 "tuple" = false ->
  generate_consistent_result_fuel (S fuel) (p0 :: rest) =
    if endswith p0 "[]" then
      if existsb (fun p => negb (endswith p "[]")) (p0 :: rest) then Val None
      else
        array_children <- generate_consistent_result_fuel fuel
                            (map drop_last2 (p0 :: rest)) ;;
        match array_children with
        | None => Val None
        | Some c =>
            if String.eqb c "" then Val None
            else r <- format c ;; Val (Some (r ++ "[]")%string)
        end
    else
      let checker := consistency_checker (p0 :: rest) in
      if negb (List.length checker =? 1)%nat then Val None
      else Val (hd_error checker).
Proof.
  intros Ht. cbn [generate_consistent_result_fuel]. rewrite Ht. reflexivity.
Qed.

(** With enough fuel the reducer, when it succeeds on a list with a plain
    first element, returns that first element. *)
Lemma reducer_fuel_plain_result (fuel : nat) :
  forall (p0 : string) (rest : list string),
    plain p0 -> (String.length p0 < fuel)%nat ->
    generate_consistent_result_fuel fuel (p0 :: rest) = Val None \/
    generate_consistent_result_fuel fuel (p0 :: rest) = Val (Some p0).
Proof.
  induction fuel as [|fuel IH]; intros p0 rest Hp Hlen; [lia|].
  rewrite reducer_fuel_plain by apply Hp.
  destruct (endswith p0 "[]") eqn:Hend.
  - destruct (existsb _ _); [now left|].
    pose proof (endswith_length _ _ Hend) as Hl2. cbn in Hl2.
    cbn [map].
    destruct (IH (drop_last2 p0) (map drop_last2 rest)) as [E|E].
    + now apply plain_drop_last2.
    + rewrite length_drop_last2. lia.
    + rewrite E. now left.
    + rewrite E. cbn [bind].
      destruct (String.eqb _ ""); [now left|].
      rewrite format_no_brace by (apply plain_drop_last2, Hp).
      cbn [bind]. rewrite drop_last2_append by exact Hend. now right.
  - cbv zeta.
    destruct (Nat.eqb_spec (List.length (consistency_checker (p0 :: rest))) 1)
      as [E|E]; cbn [negb]; [|now left].
    right. f_equal. apply hd_error_singleton; auto.
    apply consistency_checker_head. now apply not_endswith_sentinel.
Qed.

(** On such a list the amount of fuel does not matter once it exceeds the
    length of the first element. *)
Lemma reducer_fuel_plain_irrelevant (f1 : nat) :
  forall (f2 : nat) (p0 : string) (rest : list string),
    plain p0 -> (String.length p0 < f1)%nat -> (String.length p0 < f2)%nat ->
    generate_consistent_result_fuel f1 (p0 :: rest) =
    generate_consistent_result_fuel f2 (p0 :: rest).
Proof.
  induction f1 as [|f1 IH]; intros f2 p0 rest Hp H1 H2; [lia|].
  destruct f2 as [|f2]; [lia|].
  rewrite !reducer_fuel_plain by apply Hp.
  destruct (endswith p0 "[]") eqn:Hend; [|reflexivity].
  destruct (existsb _ _); [reflexivity|].
  pose proof (endswith_length _ _ Hend) as Hl2. cbn in Hl2.
  cbn [map].
  rewrite (IH f2 (drop_last2 p0) (map drop_last2 rest));
    [reflexivity | now apply plain_drop_last2 | | ];
    rewrite length_drop_last2; lia.
Qed.

Lemma reducer_plain_result (p0 : string) (rest : list string) :
  plain p0 ->
  generate_consistent_result (p0 :: rest) = Val None \/
  generate_consistent_result (p0 :: rest) = Val (Some p0).
Proof.
  intros Hp. unfold generate_consistent_result.
  apply reducer_fuel_plain_result; cbn; auto.
Qed.

(** Outside the plain strings the recursion need not end: in the tuple
    branch a first element without a comma is its own only component. *)
Lemma reducer_loops_on_bare_tuple (fuel : nat) :
  generate_consistent_result_fuel fuel ["tuple[]"] = OutOfFuel.
Proof.
  induction fuel as [|fuel IH]; [reflexivity|].
  cbn [generate_consistent_result_fuel]. cbn -[generate_consistent_result_fuel].
  now rewrite IH.
Qed.

(** ** Candidate types are plain *)

Lemma candidates_nonempty (ts : list string) : candidates ts -> ts <> [].
Proof. intros [t _|t ts' _ _]; discriminate. Qed.

Lemma join_cons (sep t : string) (ts : list string) :
  ts <> [] -> join sep (t :: ts) = (t ++ sep ++ join sep ts)%string.
Proof. destruct ts; [contradiction | reflexivity]. Qed.

Lemma length_append (a b : string) :
  String.length (a ++ b) = (String.length a + String.length b)%nat.
Proof. induction a; cbn; auto. Qed.

Lemma candidate_shape (s : string) :
  candidate s ->
  no_brace s = true /\ (3 <= String.length s)%nat /\ starts_paren_or_b s.
Proof.
  intros H.
  induction H using candidate_mut with
    (P0 := fun ts _ => no_brace (join "," ts) = true
                       /\ (1 <= String.length (join "," ts))%nat).
  - repeat split; cbn; try lia. exists "b"%char, "ytes32". auto.
  - repeat split; cbn; try lia. exists "b"%char, "ytes". auto.
  - repeat split; cbn; try lia. exists "("%char, ")[]". auto.
  - destruct IHcandidate as [Hb Hl]. repeat split.
    + cbn. rewrite no_brace_append, Hb. reflexivity.
    + cbn. rewrite length_append. cbn. lia.
    + eexists _, _. split; [reflexivity | auto].
  - destruct IHcandidate as (Hb & Hl & c0 & r & -> & Hc). repeat split.
    + rewrite no_brace_append, Hb. reflexivity.
    + rewrite length_append. lia.
    + exists c0, (r ++ "[]")%string. auto.
  - destruct IHcandidate as (Hb & Hl & _). cbn. split; [auto | lia].
  - destruct IHcandidate as (Hb & Hl & _). destruct IHcandidate0 as [Hbs Hls].
    rewrite join_cons by (now apply candidates_nonempty). split.
    + rewrite !no_brace_append, Hb, Hbs. reflexivity.
    + rewrite length_append. lia.
Qed.

Lemma candidate_plain (s : string) : candidate s -> plain s.
Proof.
  intros H. destruct (candidate_shape s H) as (Hb & _ & c & r & -> & Hc).
  split; [exact Hb|].
  destruct Hc as [-> | ->]; reflexivity.
Qed.

(** ** Consistency reducer on arrays *)

(** C8: for a candidate list whose first element ends with ["[]"], the
    reducer fails if some sibling does not end with ["[]"]; otherwise its
    result is the reduction of the list with one ["[]"] stripped from each
    element, with ["[]"] appended, and a failure of that reduction is
    passed on. *)
Theorem reducer_array_rule (p0 : string) (rest : list string) :
  candidate p0 -> endswith p0 "[]" = true ->
  generate_consistent_result (p0 :: rest) =
    if existsb (fun p => negb (endswith p "[]")) (p0 :: rest) then Val None
    else
      match generate_consistent_result (map drop_last2 (p0 :: rest)) with
      | Val (Some c) => Val (Some (c ++ "[]")%string)
      | failure => failure
      end.
Proof.
  intros Hc Hend.
  pose proof (candidate_plain _ Hc) as Hp.
  destruct (candidate_shape _ Hc) as (_ & Hlen & _).
  pose proof (plain_drop_last2 _ Hp) as Hp'.
  unfold generate_consistent_result at 1. cbn [hd].
  rewrite reducer_fuel_plain by apply Hp. rewrite Hend.
  destruct (existsb _ _); [reflexivity|].
  cbn [map].
  rewrite (reducer_fuel_plain_irrelevant _ (S (String.length (drop_last2 p0))))
    by (auto; rewrite length_drop_last2; lia).
  change (generate_consistent_result_fuel (S (String.length (drop_last2 p0)))
            (drop_last2 p0 :: map drop_last2 rest))
    with (generate_consistent_result (drop_last2 p0 :: map drop_last2 rest)).
  destruct (reducer_plain_result (drop_last2 p0) (map drop_last2 rest) Hp') as [E|E];
    rewrite E; cbn [bind]; [reflexivity|].
  destruct (String.eqb_spec (drop_last2 p0) "") as [E0|_].
  - apply (f_equal String.length) in E0. rewrite length_drop_last2 in E0.
    cbn in E0. lia.
  - rewrite format_no_brace by apply Hp'. reflexivity.
Qed.

Lemma reducer_array_rule_witness :
  generate_consistent_result ["bytes32[]"; "bytes32[]"] =
    if existsb (fun p => negb (endswith p "[]")) ["bytes32[]"; "bytes32[]"]
    then Val None
    else
      match generate_consistent_result (map drop_last2 ["bytes32[]"; "bytes32[]"]) with
      | Val (Some c) => Val (Some (c ++ "[]")%string)
      | failure => failure
      end.
Proof.
  apply (reducer_array_rule "bytes32[]" ["bytes32[]"]);
    [apply (cand_array "bytes32"), cand_bytes32 | reflexivity].
Defined.

(** ** Choice among array interpretations *)

Lemma insert_by_len_In (r x : list string) (sorted : list (list string)) :
  In x (insert_by_len r sorted) <-> x = r \/ In x sorted.
Proof.
  induction sorted as [|y ys IH]; cbn.
  - intuition.
  - destruct (_ <=? _)%nat; cbn; rewrite ?IH; intuition.
Qed.

Lemma sort_by_len_In (x : list string) (rs : list (list string)) :
  In x (sort_by_len rs) <-> In x rs.
Proof.
  induction rs as [|r rs IH]; cbn; [tauto|].
  rewrite insert_by_len_In, IH. intuition.
Qed.

Lemma insert_by_len_sorted (r : list string) (sorted : list (list string)) :
  StronglySorted shorter_eq sorted ->
  StronglySorted shorter_eq (insert_by_len r sorted).
Proof.
  induction 1 as [|y ys Hs IH Hy]; cbn.
  - repeat constructor.
  - destruct (Nat.leb_spec (List.length r) (List.length y)) as [Hle|Hgt].
    + constructor; [now constructor|].
      constructor; [exact Hle|].
      eapply Forall_impl; [|exact Hy]. unfold shorter_eq. intros; lia.
    + constructor; [exact IH|].
      apply Forall_forall. intros x Hx. apply insert_by_len_In in Hx as [->|Hx].
      * unfold shorter_eq; lia.
      * rewrite Forall_forall in Hy. auto.
Qed.

Lemma sort_by_len_sorted (rs : list (list string)) :
  StronglySorted shorter_eq (sort_by_len rs).
Proof.
  induction rs; cbn; [constructor | now apply insert_by_len_sorted].
Qed.

(** The first element of the sorted list is a shortest element. *)
Lemma sort_by_len_first (rs : list (list string)) (first : list string)
    (others : list (list string)) :
  sort_by_len rs = first :: others ->
  In first rs /\ forall r, In r rs -> (List.length first <= List.length r)%nat.
Proof.
  intros E. split.
  - apply sort_by_len_In. rewrite E. now left.
  - intros r Hr. apply sort_by_len_In in Hr. rewrite E in Hr.
    pose proof (sort_by_len_sorted rs) as Hs. rewrite E in Hs.
    inversion Hs as [|? ? _ Hall]; subst.
    destruct Hr as [<-|Hr]; [lia|].
    rewrite Forall_forall in Hall. now apply Hall.
Qed.

(** On candidate lists the reducer returns a value, and a successful one is
    the first element. *)
Lemma reducer_candidates (r : list string) :
  Forall candidate r ->
  generate_consistent_result r = Val None \/
  exists t rest, r = t :: rest /\ generate_consistent_result r = Val (Some t)
                 /\ truthy_str (Some t) = true.
Proof.
  intros Hr. destruct r as [|t rest]; [now left|].
  inversion Hr as [|? ? Ht _]; subst.
  destruct (reducer_plain_result t rest (candidate_plain _ Ht)) as [E|E];
    [now left | right].
  exists t, rest. repeat split; auto.
  destruct (candidate_shape _ Ht) as (_ & Hl & _).
  cbn. destruct (String.eqb_spec t ""); [subst; cbn in Hl; lia | reflexivity].
Qed.

Lemma valid_results_candidates (all_results : list (list string)) :
  Forall (Forall candidate) all_results ->
  exists valid,
    valid_results all_results = Val valid /\
    forall r, In r valid <->
              In r all_results /\
              exists T, generate_consistent_result r = Val (Some T).
Proof.
  induction 1 as [|r rs Hr Hrs (valid & Ev & Hv)]; cbn [valid_results].
  - exists []. split; [reflexivity|]. cbn [In]. intuition.
  - rewrite Ev.
    destruct (reducer_candidates r Hr) as [E|(t & rest & -> & E & Ht)]; rewrite E; cbn [bind].
    + exists valid. split; [reflexivity|]. intros x. rewrite Hv. cbn [In].
      split; [intuition|]. intros [[<-|Hx] (T & HT)]; [congruence | eauto].
    + rewrite Ht. exists ((t :: rest) :: valid). split; [reflexivity|].
      intros x. cbn [In]. rewrite Hv. split.
      * intros [<-|[Hx HT]]; eauto.
      * intros [[<-|Hx] HT]; auto.
Qed.

(** What lines 325-331 compute on candidate lists. *)
Lemma choose_array_type_spec (all_results : list (list string)) :
  Forall (Forall candidate) all_results ->
  exists valid,
    valid_results all_results = Val valid /\
    (forall r, In r valid <->
               In r all_results /\
               exists T, generate_consistent_result r = Val (Some T)) /\
    match sort_by_len valid with
    | [] => choose_array_type all_results = Val None
    | first :: _ =>
        In first valid /\
        (forall r, In r valid -> (List.length first <= List.length r)%nat) /\
        exists T,
          generate_consistent_result first = Val (Some T) /\
          choose_array_type all_results = Val (Some (T ++ "[]")%string)
    end.
Proof.
  intros Hall.
  destruct (valid_results_candidates all_results Hall) as (valid & Ev & Hv).
  exists valid. split; [exact Ev|]. split; [exact Hv|].
  unfold choose_array_type. rewrite Ev. cbn [bind].
  destruct (sort_by_len valid) as [|first others] eqn:Es; [reflexivity|].
  destruct (sort_by_len_first _ _ _ Es) as [Hin Hmin].
  split; [exact Hin|]. split; [exact Hmin|].
  apply Hv in Hin as [Hin (T & HT)].
  rewrite Forall_forall in Hall.
  destruct (reducer_candidates first (Hall _ Hin)) as [E|(t & rest & -> & E & _)];
    [congruence|].
  exists t. split; [exact E | reflexivity].
Qed.

(** ** Sequencing *)

Lemma bind_val {A B : Type} (m : res A) (k : A -> res B) (b : B) :
  bind m k = Val b -> exists a, m = Val a /\ k a = Val b.
Proof. destruct m as [a| |]; cbn; try discriminate. eauto. Qed.

(** ** The decoder returns only what the ABI decoder accepts *)

Section Oracle.

Variable decode_abi_data : list string -> bytes -> option (list value).

Lemma test_params_true (data : bytes) (params : option (list string)) :
  test_params decode_abi_data data params = true ->
  exists l vals, params = Some l /\ l <> [] /\ decode_abi_data l data = Some vals.
Proof.
  destruct params as [[|p ps]|]; cbn; try discriminate.
  destruct (decode_abi_data (p :: ps) data) as [vals|] eqn:E; [|discriminate].
  intros _. exists (p :: ps), vals. repeat split; auto. discriminate.
Qed.

Lemma gated_some (data : bytes) (fragment : res (option (list string)))
    (l : list string) :
  gated decode_abi_data data fragment = Val (Some l) ->
  test_params decode_abi_data data (Some l) = true.
Proof.
  unfold gated. destruct fragment as [f| |]; cbn [bind]; try discriminate.
  destruct (test_params decode_abi_data data f) eqn:E; [|discriminate].
  now intros [= ->].
Qed.

Lemma decode_frame_accepted (rec : frame) (n depth : nat) (data : bytes)
    (param_idx : Z) (collected : list slot) (eos : Z)
    (expected : option Z) (is_dyn : option bool) (l : list string) :
  decode_frame decode_abi_data rec n depth data param_idx collected eos
    expected is_dyn = Val (Some l) ->
  test_params decode_abi_data data (Some l) = true.
Proof.
  unfold decode_frame.
  destruct (param_idx * 32 <? eos).
  - intros H. apply bind_val in H as ([fragment|] & Hdyn & H).
    + injection H as <-.
      destruct (try_parse_offset data (param_idx * 32)) as [off|];
        [|discriminate].
      apply bind_val in Hdyn as ([w|] & Hw & Hdyn).
      * injection Hdyn as <-.
        destruct (try_parse_length data off); [|discriminate].
        destruct (allows is_dyn true); [|discriminate].
        now apply gated_some in Hw.
      * destruct (allows is_dyn false); [|discriminate].
        now apply gated_some in Hdyn.
    + destruct is_dyn; [discriminate|]. now apply gated_some in H.
  - unfold resolve_tail.
    destruct (match expected with Some e => _ | None => _ end); [discriminate|].
    intros H. apply bind_val in H as ([fp|] & _ & H); [|discriminate].
    destruct (test_params decode_abi_data data (Some fp)) eqn:E; [|discriminate].
    now injection H as <-.
Qed.

Lemma decode_tuple_accepted (fuel depth : nat) (data : bytes)
    (param_idx : Z) (collected : list slot) (eos : Z)
    (expected : option Z) (is_dyn : option bool) (l : list string) :
  decode_well_formed_tuple decode_abi_data fuel depth data param_idx
    collected eos expected is_dyn = Val (Some l) ->
  l <> [] /\ exists vals, decode_abi_data l data = Some vals.
Proof.
  destruct fuel as [|fuel]; [discriminate|].
  cbn [decode_well_formed_tuple]. intros H.
  apply decode_frame_accepted, test_params_true in H.
  destruct H as (l' & vals & [= <-] & Hne & Hd). eauto.
Qed.

(** X25: a type list returned by [decode_well_formed_tuple] is not empty
    and the ABI decoder accepts it against the data of that frame. *)
Theorem decoder_result_accepted (fuel depth : nat) (data : bytes)
    (param_idx : Z) (collected : list slot) (eos : Z)
    (expected : option Z) (is_dyn : option bool) (l : list string) :
  decode_well_formed_tuple decode_abi_data fuel depth data param_idx
    collected eos expected is_dyn = Val (Some l) ->
  l <> [] /\ exists vals, decode_abi_data l data = Some vals.
Proof. apply decode_tuple_accepted. Qed.

(** The list that [guess_abi_encoded_data] refines is such a list; the
    refined list itself is returned without a further test. *)
Lemma guess_refines_accepted (utf8_valid : bytes -> bool) (fuel : nat)
    (data : bytes) (tys : list string) :
  guess_abi_encoded_data decode_abi_data utf8_valid fuel data = Val (Some tys) ->
  exists params vals,
    decode_well_formed_tuple decode_abi_data fuel 0%nat data 0 [] (len data)
      None None = Val (Some params) /\
    params <> [] /\
    decode_abi_data params data = Some vals /\
    infer_types utf8_valid fuel params (VSeq vals) = Val tys.
Proof.
  unfold guess_abi_encoded_data.
  destruct (decode_well_formed_tuple _ _ _ _ _ _ _ _ _) as [[ps|]| |] eqn:E;
    cbn [bind]; try discriminate.
  destruct (decode_tuple_accepted _ _ _ _ _ _ _ _ _ E) as [Hne [vals Hv]].
  rewrite Hv.
  destruct (infer_types _ _ _ _) as [r| |] eqn:Ei; cbn [bind]; try discriminate.
  intros [= <-]. exists ps, vals. auto.
Qed.

End Oracle.


Lemma decoder_result_accepted_witness :
  ["bytes32"] <> [] /\
  exists vals, lenient_decoder ["bytes32"] (word 7) = Some vals.
Proof.
  apply (decoder_result_accepted lenient_decoder 2 0 (word 7) 0 [] 32 None None).
  reflexivity.
Defined.

(** For every decoder that decodes the nested tuple and its inner regions,
    the guess for [nested_tuple_data] is a string that is no type: the
    refiner splits ["((bytes32,bytes))"] at the comma inside the inner
    tuple and passes the piece ["(bytes32"] through. *)
Lemma guess_nested_tuple (other : list string -> bytes -> option (list value))
    (utf8_valid : bytes -> bool) (fuel : nat) :
  guess_abi_encoded_data (nested_tuple_decoder other) utf8_valid (7 + fuel)
    nested_tuple_data = Val (Some ["((bytes32)"]).
Proof. vm_compute. reflexivity. Qed.

(** C1: the code at [nested_tuple_data], for every decoder that decodes
    the nested tuple and its inner regions as the ABI prescribes.  The
    decoder accepts the list ["((bytes32,bytes))"] that
    [decode_well_formed_tuple] returns; the refiner's tuple branch (lines
    386-389) then splits ["(bytes32,bytes)"] at its inner comma, [zip]
    keeps the piece ["(bytes32"] with the one value, and the guess is
    [["((bytes32)"]], a string with unbalanced parentheses that no ABI
    decoder reads as a type. *)
Theorem guess_returns_malformed_type
    (other : list string -> bytes -> option (list value))
    (utf8_valid : bytes -> bool) (fuel : nat) :
  decode_well_formed_tuple (nested_tuple_decoder other) (7 + fuel) 0%nat
    nested_tuple_data 0 [] (len nested_tuple_data) None None
  = Val (Some ["((bytes32,bytes))"]) /\
  nested_tuple_decoder other ["((bytes32,bytes))"] nested_tuple_data
  = Some [VSeq [VSeq [VBytes word_ff; VBytes [x80]]]] /\
  guess_abi_encoded_data (nested_tuple_decoder other) utf8_valid (7 + fuel)
    nested_tuple_data = Val (Some ["((bytes32)"]).
Proof. repeat split; vm_compute; reflexivity. Qed.

(** The guess is not always accepted: the list above is returned although
    the decoder at hand rejects it. *)
Lemma refined_list_not_accepted :
  ~ (forall (decode_abi_data : list string -> bytes -> option (list value))
            (utf8_valid : bytes -> bool) (fuel : nat) (data : bytes)
            (tys : list string),
        guess_abi_encoded_data decode_abi_data utf8_valid fuel data = Val (Some tys) ->
        exists vals, decode_abi_data tys data = Some vals).
Proof.
  intros H.
  destruct (H (nested_tuple_decoder (fun _ _ => None)) (fun _ => false) 7%nat
              nested_tuple_data ["((bytes32)"]
              (guess_nested_tuple _ _ 0%nat)) as [vals Hv].
  vm_compute in Hv. discriminate.
Qed.

(** ** Exceptions *)

(** C2: the code at [twin_offset_data], for every ABI decoder.  Both head
    words probe as the offset 64 and the word at 64 is no length, so both
    slots are taken without a length; the region of the first one is
    [data[64:64]], its decoding fails, and line 266 subtracts [None] from
    an integer. *)
Theorem guess_raises_type_error
    (decode_abi_data : list string -> bytes -> option (list value))
    (utf8_valid : bytes -> bool) (fuel : nat) :
  guess_abi_encoded_data decode_abi_data utf8_valid (4 + fuel) twin_offset_data
  = Exc TypeError.
Proof. vm_compute. reflexivity. Qed.

(** ** Results are not empty *)

Lemma infer_types_length (utf8_valid : bytes -> bool) (fuel : nat)
    (params : list string) (vals : list value) (r : list string) :
  infer_types utf8_valid fuel params (VSeq vals) = Val r ->
  List.length r = List.length (combine params vals).
Proof.
  destruct fuel as [|fuel]; [discriminate|].
  cbn [infer_types items bind].
  generalize (combine params vals) as pairs. intros pairs. revert r.
  induction pairs as [|[param val] rest IH]; intros r H.
  - now injection H as <-.
  - apply bind_val in H as (t & _ & H).
    apply bind_val in H as (ts & Hts & H).
    injection H as <-. cbn [List.length]. f_equal. now apply IH.
Qed.

(** C10: for every ABI decoder that returns one value per type, a
    successful guess is a non-empty list; [test_params] is false on the
    empty list whatever the decoder says about it, and on the empty input
    the guess is [None]. *)
Theorem guess_result_nonempty
    (decode_abi_data : list string -> bytes -> option (list value))
    (utf8_valid : bytes -> bool) (fuel : nat) :
  (forall types d vals,
      decode_abi_data types d = Some vals ->
      List.length vals = List.length types) ->
  (forall data tys,
      guess_abi_encoded_data decode_abi_data utf8_valid fuel data = Val (Some tys) ->
      tys <> []) /\
  (forall data, test_params decode_abi_data data (Some []) = false) /\
  guess_abi_encoded_data decode_abi_data utf8_valid (S fuel) [] = Val None.
Proof.
  intros Hlen. split; [|split; reflexivity].
  intros data tys H.
  apply guess_refines_accepted in H as (ps & vals & _ & Hne & Hd & Hi).
  apply infer_types_length in Hi. apply Hlen in Hd.
  destruct ps as [|p ps]; [contradiction|].
  destruct vals as [|v vals]; [discriminate|].
  destruct tys; [discriminate Hi | discriminate].
Qed.

Lemma guess_result_nonempty_witness :
  (forall data tys,
      guess_abi_encoded_data lenient_decoder (fun _ => true) 8 data = Val (Some tys) ->
      tys <> []) /\
  (forall data, test_params lenient_decoder data (Some []) = false) /\
  guess_abi_encoded_data lenient_decoder (fun _ => true) 9 [] = Val None.
Proof.
  apply (guess_result_nonempty lenient_decoder (fun _ => true) 8).
  intros types d vals H. injection H as <-. apply length_map.
Defined.

(** ** Windows of the static-array path *)

Section Windows.

Variable decode_abi_data : list string -> bytes -> option (list value).
Variable rec : frame.

Lemma resolve_all_reaches (n depth : nat) (data : bytes) (slot_offset : Z)
    (slot_length : option Z) (later : list slot) :
  resolve_dynamic rec n depth data slot_offset slot_length
    (next_dynamic_param later) = Val None ->
  forall (earlier : list slot) (final_params l : list string),
    resolve_all rec n depth data
      (earlier ++ Dynamic slot_offset slot_length :: later) final_params
    <> Val (Some l).
Proof.
  intros Hslot earlier.
  induction earlier as [|[ty|o len0] earlier IH]; intros final_params l;
    cbn [app resolve_all].
  - rewrite Hslot. discriminate.
  - apply IH.
  - destruct (resolve_dynamic rec n depth data o len0 _) as [[ty|]| |];
      cbn [bind]; try discriminate. apply IH.
Qed.

(** Line 314: if the static-array path gets no types for a window while
    the slot [{offset, length}] is resolved as an array, the frame does
    not return a type list, whatever the with-length and the no-length
    recursions produced. *)
Lemma window_failure_fails_frame (n depth : nat) (data : bytes)
    (param_idx : Z) (earlier later : list slot) (offset length : Z)
    (end_of_static : Z) (expected : option Z) (is_dyn : option bool)
    (with_length no_length : option (list string)) :
  let dynamic_data :=
    slice data (offset + 32)
      match next_dynamic_param later with
      | None => len data
      | Some (o, _) => o
      end in
  (param_idx * 32 <? end_of_static) = false ->
  length <> 0 ->
  is_bytestring dynamic_data length = false ->
  rec (S depth) dynamic_data 0 [] (len dynamic_data) (Some length) (Some true)
  = Val with_length ->
  rec (S depth) dynamic_data 0 [] (len dynamic_data) (Some length) (Some false)
  = Val no_length ->
  static_parse rec n depth dynamic_data (len dynamic_data / 32 / length)
    length 0 [] = Val None ->
  forall l,
    decode_frame decode_abi_data rec n depth data param_idx
      (earlier ++ Dynamic offset (Some length) :: later)
      end_of_static expected is_dyn <> Val (Some l).
Proof.
  intros dd Htail Hlen Hbytes Hwith Hno Hwin l.
  unfold decode_frame. rewrite Htail. unfold resolve_tail.
  destruct (match expected with Some e => _ | None => _ end); [discriminate|].
  intros H. apply bind_val in H as ([fp|] & Hall & H); [|discriminate].
  revert Hall. apply resolve_all_reaches.
  unfold resolve_dynamic. fold dd.
  destruct (Z.eqb_spec length 0); [contradiction|].
  rewrite Hbytes. unfold resolve_array, array_interpretations.
  rewrite Hwith, Hno. cbn [bind]. rewrite Hwin. reflexivity.
Qed.

End Windows.

(** ** Offsets of the collected slots *)

Lemma nth_error_snoc {A : Type} (xs : list A) (x y : A) (i : nat) :
  nth_error (xs ++ [x]) i = Some y ->
  nth_error xs i = Some y \/ (i = List.length xs /\ x = y).
Proof.
  intros H. destruct (Nat.lt_ge_cases i (List.length xs)) as [Hlt|Hge].
  - left. now rewrite nth_error_app1 in H.
  - rewrite nth_error_app2 in H by exact Hge.
    destruct (i - List.length xs)%nat as [|k] eqn:E; cbn in H.
    + right. injection H as <-. split; [lia | reflexivity].
    + destruct k; discriminate.
Qed.

(** C9, as amended: in every frame of a region, the number of collected
    slots is the position, and the offset of every dynamic slot is a
    multiple of 32, lies strictly between the byte position of its slot and
    [len(data)], and is at least the frame's [end_of_static]. *)
Theorem collected_offsets_bounded (data : bytes) (is_dyn : option bool)
    (param_idx : Z) (collected : list slot) (eos : Z) :
  activation data is_dyn param_idx collected eos ->
  len collected = param_idx /\
  forall (i : nat) (offset : Z) (length : option Z),
    nth_error collected i = Some (Dynamic offset length) ->
    Z.of_nat i * 32 < offset /\ offset < len data /\
    offset mod 32 = 0 /\ eos <= offset.
Proof.
  induction 1 as [eos0|idx coll eos idx' coll' eos' _ [Hlen Hinv] Hcall].
  - split; [reflexivity|]. intros [|i] offset length; discriminate.
  - destruct Hcall as [idx coll eos off l Hpos Hoff Hl _
                      |idx coll eos off Hpos Hoff _
                      |idx coll eos Hpos _];
      (split; [rewrite len_app; cbn; lia|]);
      intros i offset length Hi;
      apply nth_error_snoc in Hi as [Hi|[-> Heq]];
      try discriminate Heq;
      try (destruct (Hinv _ _ _ Hi) as (? & ? & ? & ?); repeat split; auto; lia).
    + injection Heq as <- <-. apply try_parse_offset_some in Hoff.
      unfold len in Hlen. repeat split; try tauto; lia.
    + injection Heq as <- <-. apply try_parse_offset_some in Hoff.
      unfold len in Hlen. repeat split; try tauto; lia.
Qed.

Lemma swapped_tails_activation :
  activation swapped_tails_data None 2
    [Dynamic 128 (Some 1); Dynamic 64 (Some 1)] 64.
Proof.
  apply (act_call _ _ 1 [Dynamic 128 (Some 1)] 128).
  - apply (act_call _ _ 0 [] 192); [apply act_enter|].
    apply (call_with_length swapped_tails_data None 0 [] 192 128 1);
      reflexivity.
  - apply (call_with_length swapped_tails_data None 1 [Dynamic 128 (Some 1)] 128 64 1);
      reflexivity.
Defined.

Lemma collected_offsets_bounded_witness :
  len [Dynamic 128 (Some 1); Dynamic 64 (Some 1)] = 2 /\
  forall (i : nat) (offset : Z) (length : option Z),
    nth_error [Dynamic 128 (Some 1); Dynamic 64 (Some 1)] i
    = Some (Dynamic offset length) ->
    Z.of_nat i * 32 < offset /\ offset < len swapped_tails_data /\
    offset mod 32 = 0 /\ 64 <= offset.
Proof.
  apply (collected_offsets_bounded swapped_tails_data None 2
           [Dynamic 128 (Some 1); Dynamic 64 (Some 1)] 64).
  exact swapped_tails_activation.
Defined.

(** C9, as stated, fails at [swapped_tails_data], for every decoder that
    decodes this data and the region of its array element as the ABI
    prescribes (no other list is submitted on the way).  The frame that
    has collected the two slots returns a list that the decoder accepts,
    and so does the whole input, yet the offsets of the frame are 128 then
    64, and 128 exceeds the final [end_of_static] of 64. *)
Lemma collected_offsets_not_increasing :
  activation swapped_tails_data None 2
    [Dynamic 128 (Some 1); Dynamic 64 (Some 1)] 64 /\
  (forall other : list string -> bytes -> option (list value),
      decode_well_formed_tuple (swapped_tails_decoder other) 6 0%nat
        swapped_tails_data 2 [Dynamic 128 (Some 1); Dynamic 64 (Some 1)] 64
        None None
      = Val (Some ["bytes"; "(bytes32,bytes32,bytes32)[]"]) /\
      decode_well_formed_tuple (swapped_tails_decoder other) 8 0%nat
        swapped_tails_data 0 [] (len swapped_tails_data) None None
      = Val (Some ["bytes"; "(bytes32,bytes32,bytes32)[]"]) /\
      exists vals,
        swapped_tails_decoder other ["bytes"; "(bytes32,bytes32,bytes32)[]"]
          swapped_tails_data = Some vals) /\
  ~ 128 < 64 /\ ~ 128 <= 64.
Proof.
  split; [exact swapped_tails_activation|].
  split; [|lia].
  intros other. repeat split; try (vm_compute; reflexivity).
  eexists. vm_compute. reflexivity.
Qed.

(** ** The decoder writes candidate types *)

Lemma valid_results_subset (all_results valid : list (list string)) :
  valid_results all_results = Val valid ->
  forall r, In r valid -> In r all_results.
Proof.
  revert valid. induction all_results as [|x xs IH]; intros valid H r Hr.
  - injection H as <-. contradiction.
  - cbn [valid_results] in H.
    apply bind_val in H as (c & _ & H). apply bind_val in H as (more & Hm & H).
    injection H as <-.
    destruct (truthy_str c); [destruct Hr as [<-|Hr]|];
      [now left | right; eauto | right; eauto].
Qed.

Lemma choose_array_type_from (all_results : list (list string)) (t : string) :
  choose_array_type all_results = Val (Some t) ->
  exists x rest, In (x :: rest) all_results /\ t = (x ++ "[]")%string.
Proof.
  unfold choose_array_type. intros H.
  apply bind_val in H as (valid & Hv & H).
  destruct (sort_by_len valid) as [|[|x rest] others] eqn:Es; try discriminate.
  injection H as <-. exists x, rest. split; [|reflexivity].
  apply (valid_results_subset _ _ Hv). apply sort_by_len_In.
  rewrite Es. now left.
Qed.

Lemma candidates_of_Forall (p : string) (ps : list string) :
  Forall candidate (p :: ps) -> candidates (p :: ps).
Proof.
  revert p. induction ps as [|q ps IH]; intros p H;
    inversion H as [|? ? Hp Hps]; subst.
  - now apply cands_one.
  - apply cands_more; auto.
Qed.

Lemma candidate_tuple_of (p : string) (ps : list string) :
  Forall candidate (p :: ps) ->
  candidate ("(" ++ join "," (p :: ps) ++ ")")%string.
Proof. intros H. apply cand_tuple. now apply candidates_of_Forall. Qed.

Section Candidates.

Variable decode_abi_data : list string -> bytes -> option (list value).

Lemma static_candidates_nil : static_candidates [].
Proof. intros ty []. Qed.

Lemma static_candidates_snoc (collected : list slot) (s : slot) :
  static_candidates collected ->
  match s with Static ty => candidate ty | Dynamic _ _ => True end ->
  static_candidates (collected ++ [s]).
Proof.
  intros Hc Hs ty Hin. apply in_app_or in Hin as [Hin|[Heq|[]]]; auto.
  now subst s.
Qed.

Lemma gated_inv (data : bytes) (fragment : res (option (list string)))
    (l : list string) :
  gated decode_abi_data data fragment = Val (Some l) -> fragment = Val (Some l).
Proof.
  unfold gated. intros H. apply bind_val in H as (f & -> & H).
  destruct (test_params decode_abi_data data f); [|discriminate].
  now injection H as ->.
Qed.

Section Frame.

Variable rec : frame.
Hypothesis rec_ok : returns_candidates rec.

Lemma static_parse_candidates (n depth : nat) (dynamic_data : bytes)
    (words_per_element count : Z) :
  forall (elem_idx : Z) (acc sp : list string),
    Forall candidate acc ->
    static_parse rec n depth dynamic_data words_per_element count elem_idx acc
    = Val (Some sp) ->
    Forall candidate sp.
Proof.
  induction n as [|n IH]; intros elem_idx acc sp Hacc H; cbn [static_parse] in H;
    destruct (elem_idx <? count); try discriminate;
    try (injection H as <-; exact Hacc).
  apply bind_val in H as ([[|p ps]|] & Hrec & H); try discriminate.
  apply rec_ok in Hrec; [|apply static_candidates_nil].
  apply IH in H; [exact H|].
  apply Forall_app. split; [exact Hacc|]. constructor; [|constructor].
  destruct (len (p :: ps) >? 1).
  - now apply candidate_tuple_of.
  - now inversion Hrec.
Qed.

Lemma array_interpretations_candidates (n depth : nat) (dynamic_data : bytes)
    (length : Z) (all_results : list (list string)) :
  array_interpretations rec n depth dynamic_data length = Val (Some all_results) ->
  Forall (Forall candidate) all_results.
Proof.
  unfold array_interpretations. intros H.
  apply bind_val in H as (a & Ha & H). apply bind_val in H as (b & Hb & H).
  apply bind_val in H as ([sp|] & Hsp & H); [|discriminate].
  injection H as <-.
  apply static_parse_candidates in Hsp; [|constructor].
  assert (forall o, rec (S depth) dynamic_data 0 [] (len dynamic_data)
                      (Some length) o = Val a ->
                    Forall (Forall candidate)
                      match a with Some (p :: ps) => [p :: ps] | _ => [] end) as Hfirst.
  { intros o Ho. destruct a as [[|p ps]|]; constructor; [|constructor].
    apply (rec_ok _ _ _ _ _ _ _ _ static_candidates_nil Ho). }
  apply Forall_app. split; [|now repeat constructor].
  destruct b as [[|q qs]|]; eauto.
  apply Forall_app. split; [eauto|]. constructor; [|constructor].
  apply (rec_ok _ _ _ _ _ _ _ _ static_candidates_nil Hb).
Qed.

Lemma resolve_array_candidate (n depth : nat) (dynamic_data : bytes)
    (length : Z) (t : string) :
  resolve_array rec n depth dynamic_data length = Val (Some t) -> candidate t.
Proof.
  unfold resolve_array. intros H.
  apply bind_val in H as ([all_results|] & Hall & H); [|discriminate].
  apply array_interpretations_candidates in Hall.
  apply choose_array_type_from in H as (x & rest & Hin & ->).
  apply cand_array. rewrite Forall_forall in Hall.
  specialize (Hall _ Hin). now inversion Hall.
Qed.

Lemma resolve_dynamic_candidate (n depth : nat) (data : bytes) (offset : Z)
    (maybe_length : option Z) (next : option (Z * option Z)) (t : string) :
  resolve_dynamic rec n depth data offset maybe_length next = Val (Some t) ->
  candidate t.
Proof.
  unfold resolve_dynamic.
  set (dd := slice data _ _). destruct maybe_length as [length|].
  - destruct (length =? 0); [intros [= <-]; constructor|].
    destruct (is_bytestring dd length); [intros [= <-]; constructor|].
    apply resolve_array_candidate.
  - intros H. apply bind_val in H as ([[|p ps]|] & Hrec & H).
    + destruct (len dd mod 32 =? 0); [discriminate|].
      apply bind_val in H as (? & _ & H). apply bind_val in H as (? & _ & H).
      discriminate.
    + injection H as <-. apply candidate_tuple_of.
      apply (rec_ok _ _ _ _ _ _ _ _ static_candidates_nil Hrec).
    + destruct (len dd mod 32 =? 0); [discriminate|].
      apply bind_val in H as (? & _ & H). apply bind_val in H as (? & _ & H).
      discriminate.
Qed.

Lemma resolve_all_candidates (n depth : nat) (data : bytes) :
  forall (remaining : list slot) (acc fp : list string),
    static_candidates remaining -> Forall candidate acc ->
    resolve_all rec n depth data remaining acc = Val (Some fp) ->
    Forall candidate fp.
Proof.
  induction remaining as [|[ty|o ml] later IH]; intros acc fp Hs Hacc H;
    cbn [resolve_all] in H.
  - now injection H as <-.
  - apply IH in H; auto.
    + intros t Ht. apply Hs. now right.
    + apply Forall_app. split; [exact Hacc|]. repeat constructor.
      apply Hs. now left.
  - apply bind_val in H as ([t|] & Ht & H); [|discriminate].
    apply resolve_dynamic_candidate in Ht.
    apply IH in H; auto.
    + intros t' Ht'. apply Hs. now right.
    + apply Forall_app. split; [exact Hacc|]. now repeat constructor.
Qed.

Lemma decode_frame_candidates (n depth : nat) (data : bytes) (param_idx : Z)
    (collected : list slot) (eos : Z) (expected : option Z)
    (is_dyn : option bool) (l : list string) :
  static_candidates collected ->
  decode_frame decode_abi_data rec n depth data param_idx collected eos
    expected is_dyn = Val (Some l) ->
  Forall candidate l.
Proof.
  intros Hs. unfold decode_frame.
  destruct (param_idx * 32 <? eos).
  - intros H. apply bind_val in H as ([fragment|] & Hdyn & H).
    + injection H as <-.
      destruct (try_parse_offset data (param_idx * 32)) as [off|];
        [|discriminate].
      apply bind_val in Hdyn as ([w|] & Hw & Hdyn).
      * injection Hdyn as <-.
        destruct (try_parse_length data off); [|discriminate].
        destruct (allows is_dyn true); [|discriminate].
        apply gated_inv in Hw. revert Hw. apply rec_ok.
        now apply static_candidates_snoc.
      * destruct (allows is_dyn false); [|discriminate].
        apply gated_inv in Hdyn. revert Hdyn. apply rec_ok.
        now apply static_candidates_snoc.
    + destruct is_dyn; [discriminate|].
      apply gated_inv in H. revert H. apply rec_ok.
      apply static_candidates_snoc; [exact Hs | constructor].
  - unfold resolve_tail.
    destruct (match expected with Some e => _ | None => _ end); [discriminate|].
    intros H. apply bind_val in H as ([fp|] & Hall & H); [|discriminate].
    destruct (test_params decode_abi_data data (Some fp)); [|discriminate].
    injection H as <-.
    now apply (resolve_all_candidates _ _ _ _ _ _ Hs (Forall_nil _) Hall).
Qed.

End Frame.

(** Every type the decoder returns is in the grammar of candidate types,
    so the lists that reach the reducer are candidate lists. *)
Lemma decoder_returns_candidates (fuel : nat) :
  returns_candidates (decode_well_formed_tuple decode_abi_data fuel).
Proof.
  induction fuel as [|fuel IH];
    intros depth data param_idx collected eos expected is_dyn l Hs H.
  - discriminate.
  - cbn [decode_well_formed_tuple] in H.
    now apply (decode_frame_candidates _ IH) in H.
Qed.

End Candidates.

(** ** The type of an array slot *)

(** C3: in the dynamic-array interpretation of a slot, the decoder keeps
    the candidate lists that the reducer does not reject, takes a first one
    in ascending order of their number of elements, and appends ["T[]"]
    where [T] is the type the reducer computes for that list; with no
    survivor the frame returns [None]. *)
Theorem array_slot_type_canonical
    (decode_abi_data : list string -> bytes -> option (list value))
    (fuel n depth : nat) (dynamic_data : bytes) (length : Z)
    (all_results : list (list string)) :
  array_interpretations (decode_well_formed_tuple decode_abi_data fuel)
    n depth dynamic_data length = Val (Some all_results) ->
  exists valid,
    valid_results all_results = Val valid /\
    (forall r, In r valid <->
               In r all_results /\
               exists T, generate_consistent_result r = Val (Some T)) /\
    match sort_by_len valid with
    | [] =>
        resolve_array (decode_well_formed_tuple decode_abi_data fuel)
          n depth dynamic_data length = Val None
    | first :: _ =>
        In first valid /\
        (forall r, In r valid -> (List.length first <= List.length r)%nat) /\
        exists T,
          generate_consistent_result first = Val (Some T) /\
          resolve_array (decode_well_formed_tuple decode_abi_data fuel)
            n depth dynamic_data length = Val (Some (T ++ "[]")%string)
    end.
Proof.
  intros Hall. unfold resolve_array. rewrite Hall. cbn [bind].
  apply choose_array_type_spec.
  apply (array_interpretations_candidates
           (decode_well_formed_tuple decode_abi_data fuel)
           (decoder_returns_candidates decode_abi_data fuel) _ _ _ _ _ Hall).
Qed.

Lemma array_slot_type_canonical_witness :
  exists valid,
    valid_results
      [["bytes"; "bytes"]; ["(bytes32,bytes32)"; "(bytes32,bytes32)"];
       ["((bytes32),bytes32)"; "(bytes32,bytes32,bytes32)"]] = Val valid /\
    (forall r, In r valid <->
               In r [["bytes"; "bytes"]; ["(bytes32,bytes32)"; "(bytes32,bytes32)"];
                     ["((bytes32),bytes32)"; "(bytes32,bytes32,bytes32)"]] /\
               exists T, generate_consistent_result r = Val (Some T)) /\
    match sort_by_len valid with
    | [] =>
        resolve_array (decode_well_formed_tuple lenient_decoder 8)
          8 0 string_array_region 2 = Val None
    | first :: _ =>
        In first valid /\
        (forall r, In r valid -> (List.length first <= List.length r)%nat) /\
        exists T,
          generate_consistent_result first = Val (Some T) /\
          resolve_array (decode_well_formed_tuple lenient_decoder 8)
            8 0 string_array_region 2 = Val (Some (T ++ "[]")%string)
    end.
Proof.
  apply (array_slot_type_canonical lenient_decoder 8 8 0 string_array_region 2).
  reflexivity.
Defined.

(** ** The calls of a frame *)

Section Calls.

Variable decode_abi_data : list string -> bytes -> option (list value).
Variables rec rec' : frame.

(** The two functions agree on every region entered at position 0. *)
Hypothesis same_on_regions :
  forall depth region eos expected is_dyn,
    rec depth region 0 [] eos expected is_dyn
    = rec' depth region 0 [] eos expected is_dyn.

Lemma static_parse_ext (n depth : nat) (dynamic_data : bytes)
    (words_per_element count : Z) :
  forall (elem_idx : Z) (acc : list string),
    static_parse rec n depth dynamic_data words_per_element count elem_idx acc
    = static_parse rec' n depth dynamic_data words_per_element count elem_idx acc.
Proof.
  induction n as [|n IH]; intros elem_idx acc; cbn [static_parse];
    [reflexivity|].
  rewrite same_on_regions.
  destruct (elem_idx <? count); [|reflexivity].
  destruct (rec' _ _ _ _ _ _ _) as [[[|p ps]|]| |]; cbn [bind]; auto.
Qed.

Lemma resolve_dynamic_ext (n depth : nat) (data : bytes) (offset : Z)
    (maybe_length : option Z) (next : option (Z * option Z)) :
  resolve_dynamic rec n depth data offset maybe_length next
  = resolve_dynamic rec' n depth data offset maybe_length next.
Proof.
  unfold resolve_dynamic, resolve_array, array_interpretations.
  destruct maybe_length as [length|].
  - destruct (length =? 0); [reflexivity|].
    destruct (is_bytestring _ _); [reflexivity|].
    rewrite same_on_regions.
    destruct (rec' _ _ _ _ _ _ (Some true)) as [a| |]; cbn [bind]; auto.
    rewrite same_on_regions.
    destruct (rec' _ _ _ _ _ _ (Some false)) as [b| |]; cbn [bind]; auto.
    now rewrite static_parse_ext.
  - rewrite same_on_regions.
    destruct (rec' _ _ _ _ _ _ None) as [[[|p ps]|]| |]; cbn [bind]; auto;
      (destruct (_ =? 0); [reflexivity|]);
      rewrite same_on_regions;
      (destruct (rec' _ _ _ _ _ _ (Some true)) as [a| |]; cbn [bind]; auto);
      now rewrite same_on_regions.
Qed.

Lemma resolve_all_ext (n depth : nat) (data : bytes) :
  forall (remaining : list slot) (acc : list string),
    resolve_all rec n depth data remaining acc
    = resolve_all rec' n depth data remaining acc.
Proof.
  induction remaining as [|[ty|o ml] later IH]; intros acc; cbn [resolve_all];
    auto.
  rewrite resolve_dynamic_ext.
  destruct (resolve_dynamic rec' _ _ _ _ _ _) as [[t|]| |]; cbn [bind]; auto.
Qed.

(** A frame calls the decoder only on regions entered at position 0 and,
    on its own data, through head calls: replacing the callee by one that
    agrees with it on those calls does not change the frame. *)
Lemma decode_frame_calls (n depth : nat) (data : bytes) (param_idx : Z)
    (collected : list slot) (eos : Z) (expected : option Z)
    (is_dyn : option bool) :
  (forall d param_idx' collected' eos',
      head_call data is_dyn param_idx collected eos param_idx' collected' eos' ->
      rec d data param_idx' collected' eos' expected is_dyn
      = rec' d data param_idx' collected' eos' expected is_dyn) ->
  decode_frame decode_abi_data rec n depth data param_idx collected eos
    expected is_dyn
  = decode_frame decode_abi_data rec' n depth data param_idx collected eos
      expected is_dyn.
Proof.
  intros Hhead. unfold decode_frame.
  destruct (Z.ltb_spec (param_idx * 32) eos) as [Hpos|_].
  - destruct (try_parse_offset data (param_idx * 32)) as [off|] eqn:Eoff.
    + destruct (try_parse_length data off) as [l|] eqn:El.
      * destruct (allows is_dyn true) eqn:Ea;
          [rewrite (Hhead _ _ _ _ (call_with_length _ _ _ _ _ _ _ Hpos Eoff El Ea))|];
          (destruct (allows is_dyn false) eqn:Eb;
           [rewrite (Hhead _ _ _ _ (call_without_length _ _ _ _ _ _ Hpos Eoff Eb))|]);
          (destruct is_dyn as [b|];
           [|rewrite (Hhead _ _ _ _ (call_static _ _ _ _ _ Hpos eq_refl))]);
          reflexivity.
      * destruct (allows is_dyn false) eqn:Eb;
          [rewrite (Hhead _ _ _ _ (call_without_length _ _ _ _ _ _ Hpos Eoff Eb))|];
          (destruct is_dyn as [b|];
           [|rewrite (Hhead _ _ _ _ (call_static _ _ _ _ _ Hpos eq_refl))]);
          reflexivity.
    + destruct is_dyn as [b|];
        [|rewrite (Hhead _ _ _ _ (call_static _ _ _ _ _ Hpos eq_refl))];
        reflexivity.
  - unfold resolve_tail. now rewrite resolve_all_ext.
Qed.

End Calls.

(** ** More fuel does not change a result *)

Lemma finished_refl {A : Type} (r : res A) : finished_as r r.
Proof. now right. Qed.

Lemma finished_bind {A B : Type} (m m' : res A) (k k' : A -> res B) :
  finished_as m m' -> (forall a, finished_as (k a) (k' a)) ->
  finished_as (bind m k) (bind m' k').
Proof.
  intros [->| ->] Hk; [now left|].
  destruct m as [a| |]; cbn; [apply Hk | now right | now left].
Qed.

Section MoreFuel.

Variable decode_abi_data : list string -> bytes -> option (list value).
Variables rec rec' : frame.
Variables n n' : nat.

Hypothesis rec_finished :
  forall depth data param_idx collected eos expected is_dyn,
    finished_as (rec depth data param_idx collected eos expected is_dyn)
                (rec' depth data param_idx collected eos expected is_dyn).

Lemma static_parse_finished (depth : nat) (dynamic_data : bytes)
    (words_per_element count : Z) :
  forall (k k' : nat) (elem_idx : Z) (acc : list string),
    (k <= k')%nat ->
    finished_as
      (static_parse rec k depth dynamic_data words_per_element count elem_idx acc)
      (static_parse rec' k' depth dynamic_data words_per_element count elem_idx acc).
Proof.
  induction k as [|k IH]; intros k' elem_idx acc Hk; cbn [static_parse].
  - destruct k'; cbn [static_parse]; destruct (elem_idx <? count);
      solve [now left | now right].
  - destruct k' as [|k']; [lia|]. cbn [static_parse].
    destruct (elem_idx <? count); [|now right].
    apply finished_bind; [apply rec_finished|].
    intros [[|p ps]|]; try apply finished_refl. apply IH. lia.
Qed.

Hypothesis n_le : (n <= n')%nat.

Lemma resolve_dynamic_finished (depth : nat) (data : bytes) (offset : Z)
    (maybe_length : option Z) (next : option (Z * option Z)) :
  finished_as (resolve_dynamic rec n depth data offset maybe_length next)
              (resolve_dynamic rec' n' depth data offset maybe_length next).
Proof.
  unfold resolve_dynamic, resolve_array, array_interpretations.
  destruct maybe_length as [length|].
  - destruct (length =? 0); [apply finished_refl|].
    destruct (is_bytestring _ _); [apply finished_refl|].
    apply finished_bind; [|intros all; apply finished_refl].
    apply finished_bind; [apply rec_finished|]. intros a.
    apply finished_bind; [apply rec_finished|]. intros b.
    apply finished_bind; [now apply static_parse_finished|].
    intros sp. apply finished_refl.
  - apply finished_bind; [apply rec_finished|].
    intros [[|p ps]|]; try apply finished_refl;
      (destruct (_ =? 0); [apply finished_refl|]);
      (apply finished_bind; [apply rec_finished|]; intros a);
      (apply finished_bind; [apply rec_finished|]; intros b);
      apply finished_refl.
Qed.

Lemma resolve_all_finished (depth : nat) (data : bytes) :
  forall (remaining : list slot) (acc : list string),
    finished_as (resolve_all rec n depth data remaining acc)
                (resolve_all rec' n' depth data remaining acc).
Proof.
  induction remaining as [|[ty|o ml] later IH]; intros acc; cbn [resolve_all].
  - apply finished_refl.
  - apply IH.
  - apply finished_bind; [apply resolve_dynamic_finished|].
    intros [t|]; [apply IH | apply finished_refl].
Qed.

Lemma gated_finished (data : bytes) (f f' : res (option (list string))) :
  finished_as f f' ->
  finished_as (gated decode_abi_data data f) (gated decode_abi_data data f').
Proof.
  intros H. unfold gated. apply finished_bind; [exact H|].
  intros a. apply finished_refl.
Qed.

Lemma decode_frame_finished (depth : nat) (data : bytes) (param_idx : Z)
    (collected : list slot) (eos : Z) (expected : option Z)
    (is_dyn : option bool) :
  finished_as
    (decode_frame decode_abi_data rec n depth data param_idx collected eos
       expected is_dyn)
    (decode_frame decode_abi_data rec' n' depth data param_idx collected eos
       expected is_dyn).
Proof.
  unfold decode_frame. destruct (param_idx * 32 <? eos).
  - apply finished_bind.
    + destruct (try_parse_offset data (param_idx * 32)) as [off|];
        [|apply finished_refl].
      apply finished_bind.
      * destruct (try_parse_length data off); [|apply finished_refl].
        destruct (allows is_dyn true); [|apply finished_refl].
        apply gated_finished, rec_finished.
      * intros [w|]; [apply finished_refl|].
        destruct (allows is_dyn false); [|apply finished_refl].
        apply gated_finished, rec_finished.
    + intros [fragment|]; [apply finished_refl|].
      destruct is_dyn; [apply finished_refl|].
      apply gated_finished, rec_finished.
  - unfold resolve_tail.
    destruct (match expected with Some e => _ | None => _ end);
      [apply finished_refl|].
    apply finished_bind; [apply resolve_all_finished|].
    intros fp. apply finished_refl.
Qed.

End MoreFuel.

(** A result obtained with some fuel is the result with any larger fuel. *)
Lemma decode_well_formed_tuple_more_fuel
    (decode_abi_data : list string -> bytes -> option (list value))
    (fuel : nat) :
  forall (fuel' depth : nat) (data : bytes) (param_idx : Z)
         (collected : list slot) (eos : Z) (expected : option Z)
         (is_dyn : option bool),
    (fuel <= fuel')%nat ->
    finished_as
      (decode_well_formed_tuple decode_abi_data fuel depth data param_idx
         collected eos expected is_dyn)
      (decode_well_formed_tuple decode_abi_data fuel' depth data param_idx
         collected eos expected is_dyn).
Proof.
  induction fuel as [|fuel IH]; intros fuel' depth data param_idx collected eos
    expected is_dyn Hle; [now left|].
  destruct fuel' as [|fuel']; [lia|].
  cbn [decode_well_formed_tuple].
  apply decode_frame_finished; [|lia].
  intros. apply IH. lia.
Qed.

(** ** The decoder finishes *)

Lemma finishes_bind {A B : Type} (m : res A) (k : A -> res B) :
  finishes m -> (forall a, m = Val a -> finishes (k a)) -> finishes (bind m k).
Proof.
  unfold finishes. destruct m as [a| |]; cbn; auto. discriminate.
Qed.

Lemma length_slice_le {A : Type} (xs : list A) (a b : Z) :
  (List.length (slice xs a b) <= List.length xs)%nat.
Proof.
  unfold slice. rewrite length_firstn, length_skipn. lia.
Qed.

Lemma length_slice_pos {A : Type} (xs : list A) (a b : Z) :
  0 < a -> (List.length (slice xs a b) <= List.length xs - 1)%nat.
Proof.
  intros Ha. unfold slice, clamp. rewrite length_firstn, length_skipn.
  destruct (Z.ltb_spec a 0); lia.
Qed.

Lemma slice_empty {A : Type} (xs : list A) (a : Z) : slice xs a a = [].
Proof. unfold slice. now rewrite Z.sub_diag. Qed.

(** An empty region with an empty static part yields no type list. *)
Lemma decode_empty_region
    (decode_abi_data : list string -> bytes -> option (list value))
    (fuel depth : nat) :
  decode_well_formed_tuple decode_abi_data (S fuel) depth [] 0 [] 0 None None
  = Val None.
Proof. reflexivity. Qed.

Section Finishes.

Variable decode_abi_data : list string -> bytes -> option (list value).
Variable rec : frame.
Variable n : nat.

(** A bound on the regions the recursive calls finish on. *)
Variable bound : nat.

Hypothesis rec_ok : returns_candidates rec.

Hypothesis rec_finishes :
  forall depth region eos expected is_dyn,
    (List.length region <= bound)%nat -> eos <= Z.of_nat bound ->
    finishes (rec depth region 0 [] eos expected is_dyn).

Hypothesis rec_empty :
  forall depth, rec depth [] 0 [] 0 None None = Val None.

Hypothesis n_bound : (bound < n)%nat.

Lemma static_parse_finishes (depth : nat) (dynamic_data : bytes)
    (words_per_element count : Z) :
  (List.length dynamic_data <= bound)%nat ->
  0 <= words_per_element * 32 <= Z.of_nat bound ->
  (words_per_element = 0 \/ count <= Z.of_nat bound) ->
  forall (k : nat) (elem_idx : Z) (acc : list string),
    0 <= elem_idx ->
    (words_per_element = 0 /\ (1 <= k)%nat \/ count - elem_idx < Z.of_nat k) ->
    finishes (static_parse rec k depth dynamic_data words_per_element count
                elem_idx acc).
Proof.
  intros Hdd Hw Hcount.
  induction k as [|k IH]; intros elem_idx acc Hidx Hk; cbn [static_parse];
    destruct (Z.ltb_spec elem_idx count) as [Hlt|Hge]; try discriminate.
  - lia.
  - destruct Hk as [[-> _]|Hk].
    + replace (elem_idx * 0 * 32) with 0 by lia.
      replace ((elem_idx + 1) * 0 * 32) with 0 by lia.
      rewrite slice_empty. cbn [Z.mul]. rewrite rec_empty. discriminate.
    + apply finishes_bind.
      * apply rec_finishes; [|lia].
        pose proof (length_slice_le dynamic_data
                      (elem_idx * words_per_element * 32)
                      ((elem_idx + 1) * words_per_element * 32)). lia.
      * intros [[|p ps]|] _; try discriminate.
        apply IH; [lia|]. right. lia.
Qed.

Lemma resolve_array_finishes (depth : nat) (dynamic_data : bytes) (length : Z) :
  (List.length dynamic_data <= bound)%nat ->
  finishes (resolve_array rec n depth dynamic_data length).
Proof.
  intros Hdd. unfold resolve_array.
  apply finishes_bind.
  - unfold array_interpretations.
    apply finishes_bind; [apply rec_finishes; unfold len; lia|]. intros a _.
    apply finishes_bind; [apply rec_finishes; unfold len; lia|]. intros b _.
    apply finishes_bind; [|intros [sp|] _; discriminate].
    set (num_words := len dynamic_data / 32).
    assert (0 <= num_words /\ num_words * 32 <= Z.of_nat bound) as [Hn0 Hn1].
    { unfold num_words, len.
      pose proof (Z.mul_div_le (Z.of_nat (List.length dynamic_data)) 32).
      split; [apply Z.div_pos; lia | lia]. }
    destruct (Z.ltb_spec 0 length) as [Hpos|Hneg].
    + assert (0 <= num_words / length <= num_words) as Hw.
      { split; [apply Z.div_pos; lia|].
        apply Z.div_le_upper_bound; [lia|]. nia. }
      apply static_parse_finishes; try lia.
      * destruct (Z.eq_dec (num_words / length) 0) as [E|E]; [now left|right].
        assert (1 <= num_words / length) as H1 by lia.
        assert (length * 1 <= num_words); [|lia].
        etransitivity; [|apply (Z.mul_div_le num_words length); lia].
        apply Z.mul_le_mono_nonneg_l; lia.
      * destruct (Z.eq_dec (num_words / length) 0) as [E|E]; [left; lia|right].
        assert (1 <= num_words / length) as H1 by lia.
        assert (length * 1 <= num_words); [|lia].
        etransitivity; [|apply (Z.mul_div_le num_words length); lia].
        apply Z.mul_le_mono_nonneg_l; lia.
    + destruct n as [|k]; [lia|]. cbn [static_parse].
      destruct (Z.ltb_spec 0 length); [lia | discriminate].
  - intros [all_results|] Hall; [|discriminate].
    apply (array_interpretations_candidates rec rec_ok) in Hall.
    destruct (choose_array_type_spec all_results Hall) as (valid & Ev & _ & Hs).
    destruct (sort_by_len valid);
      [rewrite Hs | destruct Hs as (_ & _ & T & _ & ->)]; discriminate.
Qed.

Lemma resolve_dynamic_finishes (depth : nat) (data : bytes) (offset : Z)
    (maybe_length : option Z) (next : option (Z * option Z)) :
  (List.length data - 1 <= bound)%nat -> 0 < offset ->
  finishes (resolve_dynamic rec n depth data offset maybe_length next).
Proof.
  intros Hdata Hoff. unfold resolve_dynamic.
  set (dd := slice data _ _).
  assert (List.length dd <= bound)%nat as Hdd.
  { unfold dd. etransitivity; [apply length_slice_pos|exact Hdata].
    destruct maybe_length; lia. }
  destruct maybe_length as [length|].
  - destruct (length =? 0); [discriminate|].
    destruct (is_bytestring dd length); [discriminate|].
    now apply resolve_array_finishes.
  - apply finishes_bind; [apply rec_finishes; unfold len; lia|].
    intros [[|p ps]|] _; try discriminate;
      (destruct (_ =? 0); [discriminate|]);
      (apply finishes_bind; [apply rec_finishes; unfold len; lia|]; intros a _);
      (apply finishes_bind; [apply rec_finishes; unfold len; lia|]; intros b _);
      discriminate.
Qed.

Lemma resolve_all_finishes (depth : nat) (data : bytes) :
  (List.length data - 1 <= bound)%nat ->
  forall (remaining : list slot) (acc : list string),
    positive_offsets remaining ->
    finishes (resolve_all rec n depth data remaining acc).
Proof.
  intros Hdata.
  induction remaining as [|[ty|o ml] later IH]; intros acc Hpos;
    cbn [resolve_all].
  - discriminate.
  - apply IH. intros o l Hin. apply (Hpos o l). now right.
  - apply finishes_bind.
    + apply resolve_dynamic_finishes; [exact Hdata|].
      apply (Hpos o ml). now left.
    + intros [t|] _; [|discriminate].
      apply IH. intros o' l Hin. apply (Hpos o' l). now right.
Qed.

Lemma resolve_tail_finishes (depth : nat) (data : bytes)
    (collected : list slot) (expected : option Z) :
  (List.length data - 1 <= bound)%nat ->
  positive_offsets collected ->
  finishes (resolve_tail decode_abi_data rec n depth data collected expected).
Proof.
  intros Hdata Hpos. unfold resolve_tail.
  destruct (match expected with Some e => _ | None => _ end); [discriminate|].
  apply finishes_bind; [now apply resolve_all_finishes|].
  intros [fp|] _; discriminate.
Qed.

End Finishes.

Lemma gated_finishes
    (decode_abi_data : list string -> bytes -> option (list value))
    (data : bytes) (fragment : res (option (list string))) :
  finishes fragment -> finishes (gated decode_abi_data data fragment).
Proof.
  intros H. unfold gated. apply finishes_bind; [exact H|]. discriminate.
Qed.

Lemma positive_offsets_snoc (collected : list slot) (s : slot) :
  positive_offsets collected ->
  match s with Static _ => True | Dynamic o _ => 0 < o end ->
  positive_offsets (collected ++ [s]).
Proof.
  intros Hc Hs o l Hin. apply in_app_or in Hin as [Hin|[Heq|[]]].
  - now apply (Hc o l).
  - now subst s.
Qed.

(** The frames of a region finish once the regions inside it do. *)
Lemma region_finishes
    (decode_abi_data : list string -> bytes -> option (list value))
    (bound : nat) (data : bytes) :
  (forall fuel depth region eos expected is_dyn,
      (List.length region <= bound)%nat -> eos <= Z.of_nat bound ->
      (enough_fuel bound <= fuel)%nat ->
      finishes (decode_well_formed_tuple decode_abi_data fuel depth region 0 []
                  eos expected is_dyn)) ->
  (List.length data - 1 <= bound)%nat ->
  forall (h fuel depth : nat) (param_idx : Z) (collected : list slot) (eos : Z)
         (expected : option Z) (is_dyn : option bool),
    0 <= param_idx -> positive_offsets collected ->
    (Z.to_nat (eos - param_idx * 32) <= h)%nat ->
    (h + 1 + Nat.max (enough_fuel bound) (S bound) <= fuel)%nat ->
    finishes (decode_well_formed_tuple decode_abi_data fuel depth data
                param_idx collected eos expected is_dyn).
Proof.
  intros Hsub Hdata.
  induction h as [|h IH];
    intros fuel depth param_idx collected eos expected is_dyn Hidx Hpos Hh Hfuel;
    (destruct fuel as [|fuel]; [lia|]);
    cbn [decode_well_formed_tuple]; unfold decode_frame;
    destruct (Z.ltb_spec (param_idx * 32) eos) as [Hlt|Hge]; try lia.
  - destruct fuel as [|fuel']; [lia|].
    apply resolve_tail_finishes with (bound := bound); auto; try lia.
    + apply decoder_returns_candidates.
    + intros. apply Hsub; auto. lia.
  - assert (forall s eos',
              eos' <= eos ->
              match s with Static _ => True | Dynamic o _ => 0 < o end ->
              forall d,
                finishes (gated decode_abi_data data
                            (decode_well_formed_tuple decode_abi_data fuel d data
                               (param_idx + 1) (collected ++ [s]) eos'
                               expected is_dyn))) as Hcall.
    { intros s eos' Hle Hs d. apply gated_finishes, IH; try lia.
      now apply positive_offsets_snoc. }
    apply finishes_bind.
    + destruct (try_parse_offset data (param_idx * 32)) as [off|] eqn:Eoff;
        [|discriminate].
      apply try_parse_offset_some in Eoff as (_ & _ & _ & Hoff & _).
      apply finishes_bind.
      * destruct (try_parse_length data off); [|discriminate].
        destruct (allows is_dyn true); [|discriminate].
        apply Hcall; lia.
      * intros [w|] _; [discriminate|].
        destruct (allows is_dyn false); [|discriminate].
        apply Hcall; lia.
    + intros [fragment|] _; [discriminate|].
      destruct is_dyn; [discriminate|].
      apply Hcall; [lia | exact I].
  - destruct fuel as [|fuel']; [lia|].
    apply resolve_tail_finishes with (bound := bound); auto; try lia.
    + apply decoder_returns_candidates.
    + intros. apply Hsub; auto. lia.
Qed.

(** With [enough_fuel s] the decoder finishes on every region of at most
    [s] bytes whose static part ends at [s] at most: it returns a list or
    [None], or raises. *)
Lemma decode_region_finishes
    (decode_abi_data : list string -> bytes -> option (list value))
    (s : nat) :
  forall (fuel depth : nat) (region : bytes) (eos : Z) (expected : option Z)
         (is_dyn : option bool),
    (List.length region <= s)%nat -> eos <= Z.of_nat s ->
    (enough_fuel s <= fuel)%nat ->
    finishes (decode_well_formed_tuple decode_abi_data fuel depth region 0 []
                eos expected is_dyn).
Proof.
  induction s as [|s IH]; intros fuel depth region eos expected is_dyn Hlen Heos Hfuel.
  - destruct fuel as [|fuel]; [cbn in Hfuel; lia|].
    cbn [decode_well_formed_tuple]. unfold decode_frame.
    destruct (Z.ltb_spec (0 * 32) eos); [lia|].
    unfold resolve_tail. destruct (match expected with Some e => _ | None => _ end);
      discriminate.
  - apply (region_finishes decode_abi_data s region IH) with (h := S s);
      try lia.
    + intros o l [].
    + cbn [enough_fuel] in Hfuel. lia.
Qed.

(** The decoder, started as [guess_abi_encoded_data] starts it, finishes. *)
Lemma decode_well_formed_tuple_finishes
    (decode_abi_data : list string -> bytes -> option (list value))
    (data : bytes) (fuel : nat) :
  (enough_fuel (List.length data) <= fuel)%nat ->
  finishes (decode_well_formed_tuple decode_abi_data fuel 0%nat data 0 []
              (len data) None None).
Proof.
  intros Hfuel.
  apply (decode_region_finishes decode_abi_data (List.length data));
    auto; unfold len; lia.
Qed.

(** * Further properties of the code *)

(** ** Length probe *)

Lemma int_of_bytes_nonneg (word : bytes) : 0 <= int_of_bytes word.
Proof.
  unfold int_of_bytes.
  assert (forall acc, 0 <= acc ->
            0 <= fold_left (fun a b => a * 256 + byte_val b) word acc) as H.
  { induction word as [|b w IH]; intros acc Hacc; cbn [fold_left]; auto.
    apply IH. unfold byte_val. lia. }
  apply H. lia.
Qed.

(** X1: at a non-negative offset the length probe returns [Some L] exactly
    when the buffer holds a full word at [offset], its value [L] is below
    [2^53 - 1], and the [L] bytes after the word lie within the buffer. *)
Theorem try_parse_length_in_bounds (data : bytes) (offset L : Z) :
  0 <= offset ->
  (try_parse_length data offset = Some L <->
   offset + 32 <= len data /\
   L = int_of_bytes (slice data offset (offset + 32)) /\
   0 <= L /\ L < 2 ^ 53 - 1 /\ offset + 32 + L <= len data).
Proof.
  intros Hoff. unfold try_parse_length, is_safe_number.
  pose proof (len_slice data offset (offset + 32) Hoff ltac:(lia)) as Hl.
  pose proof (len_nonneg data) as Hn.
  pose proof (int_of_bytes_nonneg (slice data offset (offset + 32))) as Hv.
  set (w := int_of_bytes (slice data offset (offset + 32))) in *.
  destruct (Z.eqb_spec (len (slice data offset (offset + 32))) 0) as [E|E].
  { split; [discriminate | intros (? & _); lia]. }
  destruct (Z.ltb_spec w (2 ^ 53 - 1)) as [S|S]; cbn [negb].
  2:{ split; [discriminate | intros (_ & -> & _ & ? & _); lia]. }
  destruct (Z.gtb_spec (offset + 32 + w) (len data)) as [G|G].
  { split; [discriminate | intros (_ & -> & _ & _ & ?); lia]. }
  split.
  - intros [= <-]. repeat split; auto; lia.
  - intros (_ & -> & _). reflexivity.
Qed.

Lemma try_parse_length_in_bounds_witness :
  try_parse_length (word 3 ++ word 0) 0 = Some 3 <->
  0 + 32 <= len (word 3 ++ word 0) /\
  3 = int_of_bytes (slice (word 3 ++ word 0) 0 (0 + 32)) /\
  0 <= 3 /\ 3 < 2 ^ 53 - 1 /\ 0 + 32 + 3 <= len (word 3 ++ word 0).
Proof.
  apply (try_parse_length_in_bounds (word 3 ++ word 0) 0 3). lia.
Defined.

(** ** Zero counters *)

Lemma lstrip_zeros_split (arr : bytes) :
  exists zeros,
    arr = zeros ++ lstrip_zeros arr /\
    Forall (fun b => byte_val b = 0) zeros /\
    match lstrip_zeros arr with
    | [] => True
    | b :: _ => byte_val b <> 0
    end.
Proof.
  induction arr as [|b arr (zeros & E & Hz & Hn)].
  - exists []. repeat split; auto.
  - cbn [lstrip_zeros]. destruct (Z.eqb_spec (byte_val b) 0) as [Hb|Hb].
    + exists (b :: zeros). repeat split; auto. cbn. now rewrite <- E.
    + exists []. repeat split; auto.
Qed.

Lemma leading_zeros_counted (arr : bytes) :
  let k := count_leading_zeros arr in
  0 <= k <= len arr /\
  Forall (fun b => byte_val b = 0) (firstn (Z.to_nat k) arr) /\
  match skipn (Z.to_nat k) arr with
  | [] => k = len arr
  | b :: _ => byte_val b <> 0
  end.
Proof.
  destruct (lstrip_zeros_split arr) as (zeros & E & Hz & Hn).
  unfold count_leading_zeros. cbv zeta.
  set (rest := lstrip_zeros arr) in *. clearbody rest. subst arr.
  replace (len (zeros ++ rest) - len rest) with (len zeros)
    by (rewrite len_app; lia).
  change (len zeros) with (Z.of_nat (List.length zeros)). rewrite !Nat2Z.id.
  split; [rewrite len_app; unfold len; lia|].
  rewrite firstn_app, Nat.sub_diag, firstn_all. cbn [firstn].
  rewrite app_nil_r. split; [exact Hz|].
  rewrite skipn_app, Nat.sub_diag, skipn_all. cbn [skipn app].
  destruct rest; [|exact Hn].
  rewrite len_app. cbn. unfold len. lia.
Qed.

Lemma firstn_length_app {A : Type} (l l' : list A) :
  firstn (List.length l) (l ++ l') = l.
Proof. induction l; cbn; [now destruct l' | now f_equal]. Qed.

Lemma skipn_length_app {A : Type} (l l' : list A) :
  skipn (List.length l) (l ++ l') = l'.
Proof. induction l; cbn; auto. Qed.

Lemma count_trailing_of_rev (arr : bytes) :
  count_trailing_zeros arr = count_leading_zeros (rev arr).
Proof.
  unfold count_trailing_zeros, count_leading_zeros, len.
  now rewrite !length_rev.
Qed.

Lemma trailing_zeros_counted (arr : bytes) :
  let k := count_trailing_zeros arr in
  0 <= k <= len arr /\
  Forall (fun b => byte_val b = 0)
    (skipn (List.length arr - Z.to_nat k) arr) /\
  match rev (firstn (List.length arr - Z.to_nat k) arr) with
  | [] => k = len arr
  | b :: _ => byte_val b <> 0
  end.
Proof.
  cbv zeta. rewrite count_trailing_of_rev.
  destruct (leading_zeros_counted (rev arr)) as (Hk & Hz & Hn).
  unfold len in Hk, Hn. rewrite length_rev in Hk, Hn.
  set (k := count_leading_zeros (rev arr)) in *. clearbody k.
  split; [exact Hk|].
  set (m := (List.length arr - Z.to_nat k)%nat).
  assert (List.length (rev (skipn m arr)) = Z.to_nat k) as Hl.
  { rewrite length_rev, length_skipn. unfold m. lia. }
  assert (rev arr = rev (skipn m arr) ++ rev (firstn m arr)) as E.
  { rewrite <- rev_app_distr, firstn_skipn. reflexivity. }
  rewrite E, <- Hl, firstn_length_app in Hz.
  rewrite E, <- Hl, skipn_length_app in Hn.
  split.
  - apply Forall_rev in Hz. now rewrite rev_involutive in Hz.
  - exact Hn.
Qed.

(** X2: [count_leading_zeros] counts exactly the zero bytes in front: it
    lies between 0 and the length, the bytes before it are zero, and the
    byte at it, if any, is not. *)
Theorem count_leading_zeros_spec (arr : bytes) :
  let k := count_leading_zeros arr in
  0 <= k <= len arr /\
  Forall (fun b => byte_val b = 0) (firstn (Z.to_nat k) arr) /\
  match skipn (Z.to_nat k) arr with
  | [] => k = len arr
  | b :: _ => byte_val b <> 0
  end.
Proof. apply leading_zeros_counted. Qed.

(** X3: [count_trailing_zeros] counts exactly the zero bytes at the end:
    the last [k] bytes are zero and the byte before them, if any, is not. *)
Theorem count_trailing_zeros_spec (arr : bytes) :
  let k := count_trailing_zeros arr in
  0 <= k <= len arr /\
  Forall (fun b => byte_val b = 0)
    (skipn (List.length arr - Z.to_nat k) arr) /\
  match rev (firstn (List.length arr - Z.to_nat k) arr) with
  | [] => k = len arr
  | b :: _ => byte_val b <> 0
  end.
Proof. apply trailing_zeros_counted. Qed.

(** ** Refinement of a static word *)

(** A byte that is not zero separates the leading from the trailing zeros. *)
Lemma leading_plus_trailing (arr : bytes) :
  count_leading_zeros arr < len arr ->
  count_leading_zeros arr + count_trailing_zeros arr < len arr.
Proof.
  intros Hlt.
  destruct (leading_zeros_counted arr) as (Hk & _ & Hn).
  destruct (trailing_zeros_counted arr) as (Ht & Hz & _).
  set (lz := count_leading_zeros arr) in *.
  set (tz := count_trailing_zeros arr) in *.
  destruct (Z.lt_ge_cases (lz + tz) (len arr)) as [|Hge]; [assumption|exfalso].
  unfold len in *.
  destruct (skipn (Z.to_nat lz) arr) as [|b rest] eqn:Es; [lia|].
  assert (nth_error arr (Z.to_nat lz) = Some b) as Hb.
  { rewrite <- (Nat.add_0_r (Z.to_nat lz)), <- nth_error_skipn, Es.
    reflexivity. }
  set (m := (List.length arr - Z.to_nat tz)%nat) in *.
  assert (nth_error (skipn m arr) (Z.to_nat lz - m) = Some b) as Hb'.
  { rewrite nth_error_skipn. replace (m + (Z.to_nat lz - m))%nat
      with (Z.to_nat lz) by (unfold m; lia). exact Hb. }
  apply nth_error_In in Hb'. rewrite Forall_forall in Hz.
  apply Hz in Hb'. contradiction.
Qed.

(** X4: the refinement of a 32-byte value by its zeros.  Twelve to
    seventeen leading zero bytes give ["address"], eighteen or more give
    ["uint256"]; otherwise trailing zeros give ["bytesN"] with [N] from 1 to
    31, and a value without them stays ["bytes32"]. *)
Theorem infer_bytes32_word (b : bytes) :
  len b = 32 ->
  let lz := count_leading_zeros b in
  let tz := count_trailing_zeros b in
  (12 <= lz <= 17 /\ infer_bytes32 (VBytes b) = Val "address") \/
  (18 <= lz /\ infer_bytes32 (VBytes b) = Val "uint256") \/
  (lz < 12 /\ 1 <= 32 - tz <= 31 /\
   infer_bytes32 (VBytes b) = Val ("bytes" ++ str_of_int (32 - tz))%string) \/
  (lz < 12 /\ tz = 0 /\ infer_bytes32 (VBytes b) = Val "bytes32").
Proof.
  intros Hlen lz tz. unfold infer_bytes32. fold lz tz.
  destruct (trailing_zeros_counted b) as (Ht & _).
  destruct (leading_zeros_counted b) as (Hl & _).
  pose proof (leading_plus_trailing b) as Hsum. fold lz tz in Ht, Hl, Hsum.
  rewrite Hlen in Ht, Hl, Hsum.
  destruct (Z.leb_spec 12 lz) as [H12|H12]; cbn [andb].
  - destruct (Z.leb_spec lz 17) as [H17|H17].
    + left. split; [lia | reflexivity].
    + right; left. destruct (Z.gtb_spec lz 16); [|lia].
      split; [lia | reflexivity].
  - destruct (Z.gtb_spec lz 16); [lia|].
    destruct (Z.gtb_spec tz 0).
    + right; right; left. split; [lia|]. split; [lia | reflexivity].
    + right; right; right. split; [lia|]. split; [lia | reflexivity].
Qed.

Lemma infer_bytes32_word_witness :
  let lz := count_leading_zeros (word 123) in
  let tz := count_trailing_zeros (word 123) in
  (12 <= lz <= 17 /\ infer_bytes32 (VBytes (word 123)) = Val "address") \/
  (18 <= lz /\ infer_bytes32 (VBytes (word 123)) = Val "uint256") \/
  (lz < 12 /\ 1 <= 32 - tz <= 31 /\
   infer_bytes32 (VBytes (word 123))
   = Val ("bytes" ++ str_of_int (32 - tz))%string) \/
  (lz < 12 /\ tz = 0 /\ infer_bytes32 (VBytes (word 123)) = Val "bytes32").
Proof.
  apply (infer_bytes32_word (word 123)). reflexivity.
Defined.

(** ** Chunks of a string *)

Lemma substring_zero (i : nat) (s : string) : substring i 0 s = "".
Proof. revert i. induction s as [|c s IH]; intros [|i]; cbn; auto. Qed.

Lemma substring_beyond (i n : nat) (s : string) :
  (String.length s <= i)%nat -> substring i n s = "".
Proof.
  revert i n. induction s as [|c s IH]; intros [|i] [|n] H; cbn in *; auto; try lia;
    apply IH; lia.
Qed.

Lemma substring_add (s : string) :
  forall i a b : nat,
    substring i (a + b) s = (substring i a s ++ substring (i + a) b s)%string.
Proof.
  induction s as [|c s IH]; intros i a b.
  - destruct i, a, b; reflexivity.
  - destruct i as [|i].
    + destruct a as [|a]; cbn [Nat.add substring append]; [reflexivity|].
      now rewrite (IH 0%nat a b).
    + cbn [Nat.add substring]. apply IH.
Qed.

Lemma substring_clip (s : string) :
  forall i n : nat,
    (String.length s <= i + n)%nat ->
    substring i n s = substring i (String.length s - i) s.
Proof.
  induction s as [|c s IH]; intros i n H.
  - destruct i, n; reflexivity.
  - destruct i as [|i]; cbn [String.length] in *.
    + destruct n as [|n]; [lia|]. cbn [Nat.sub substring]. f_equal.
      rewrite (IH 0%nat n) by lia. now rewrite Nat.sub_0_r.
    + cbn [Nat.sub substring]. apply IH. lia.
Qed.

Lemma length_substring (s : string) :
  forall i n : nat,
    String.length (substring i n s) = Nat.min n (String.length s - i).
Proof.
  induction s as [|c s IH]; intros i n.
  - destruct i, n; reflexivity.
  - destruct i as [|i]; cbn [String.length Nat.sub].
    + destruct n as [|n]; cbn [substring String.length]; [reflexivity|].
      rewrite (IH 0%nat n), Nat.sub_0_r. lia.
    + cbn [substring]. apply IH.
Qed.

Lemma concat_empty_cons (c : string) (l : list string) :
  String.concat "" (c :: l) = (c ++ String.concat "" l)%string.
Proof.
  destruct l; cbn [String.concat append]; [|reflexivity].
  induction c; cbn; [reflexivity | now f_equal].
Qed.

Lemma range_from_lt (k i step stop j : nat) :
  In j (range_from k i step stop) -> (j < stop)%nat.
Proof.
  revert i. induction k as [|k IH]; intros i; cbn [range_from]; [intros []|].
  destruct (Nat.ltb_spec i stop) as [Hlt|Hge]; [|intros []].
  intros [<-|Hin]; eauto.
Qed.

Section Chunks.

Variable s : string.
Variable k : nat.
Hypothesis k_pos : (0 < k)%nat.

Lemma chunks_concat (fuel : nat) :
  forall i : nat,
    (String.length s - i <= fuel)%nat ->
    String.concat "" (map (fun j => substring j k s)
                        (range_from fuel i k (String.length s)))
    = substring i (String.length s - i) s.
Proof.
  induction fuel as [|fuel IH]; intros i Hfuel; cbn [range_from map].
  - replace (String.length s - i)%nat with 0%nat by lia.
    now rewrite substring_zero.
  - destruct (Nat.ltb_spec i (String.length s)) as [Hlt|Hge]; cbn [map].
    + rewrite concat_empty_cons, IH by lia.
      destruct (Nat.le_gt_cases (i + k) (String.length s)) as [Hin|Hout].
      * rewrite <- substring_add. f_equal. lia.
      * rewrite (substring_beyond (i + k)) by lia.
        rewrite (substring_clip s i k) by lia.
        generalize (substring i (String.length s - i) s). intros t.
        induction t; cbn; [reflexivity | now f_equal].
    + replace (String.length s - i)%nat with 0%nat by lia.
      now rewrite substring_zero.
Qed.

Lemma chunks_full (fuel : nat) :
  forall (i : nat) (pre post : list nat) (j : nat),
    range_from fuel i k (String.length s) = pre ++ j :: post ->
    post <> [] ->
    String.length (substring j k s) = k.
Proof.
  induction fuel as [|fuel IH]; intros i pre post j E Hpost; cbn [range_from] in E.
  - now destruct pre.
  - destruct (Nat.ltb_spec i (String.length s)) as [Hlt|Hge];
      [|now destruct pre].
    destruct pre as [|p pre]; cbn [app] in E; injection E as <- E.
    + destruct post as [|q post]; [contradiction|].
      assert (In q (range_from fuel (i + k) k (String.length s))) as Hq
        by (rewrite E; now left).
      destruct fuel as [|fuel]; [contradiction|]. cbn [range_from] in Hq.
      destruct (Nat.ltb_spec (i + k) (String.length s)); [|contradiction].
      rewrite length_substring. lia.
    + eapply IH; eauto.
Qed.

End Chunks.

(** X5: for a positive chunk length, [chunk_string] cuts the string into
    pieces whose concatenation is the string; every piece is non-empty and
    at most [chunk_length] long, and every piece but the last is exactly
    that long. *)
Theorem chunk_string_pieces (s : string) (chunk_length : Z) :
  0 < chunk_length ->
  exists chunks,
    chunk_string s chunk_length = Val chunks /\
    String.concat "" chunks = s /\
    Forall (fun c => 1 <= Z.of_nat (String.length c) <= chunk_length) chunks /\
    forall pre c post,
      chunks = pre ++ c :: post -> post <> [] ->
      Z.of_nat (String.length c) = chunk_length.
Proof.
  intros Hpos. unfold chunk_string, py_range, chunk_at.
  destruct (Z.eqb_spec chunk_length 0); [lia|].
  destruct (Z.ltb_spec chunk_length 0); [lia|]. cbn [bind].
  set (k := Z.to_nat chunk_length).
  assert (0 < k)%nat as Hk by (unfold k; lia).
  eexists. split; [reflexivity|]. split; [|split].
  - rewrite (chunks_concat s k Hk) by lia.
    rewrite Nat.sub_0_r. apply substring_0_length.
  - apply Forall_forall. intros c Hc. apply in_map_iff in Hc as (j & <- & Hj).
    apply range_from_lt in Hj. rewrite length_substring. lia.
  - intros pre c post E Hpost.
    apply map_eq_app in E as (pre' & rest & Er & _ & E).
    destruct rest as [|j post']; [discriminate|]. cbn [map] in E.
    injection E as <- E.
    erewrite chunks_full; [unfold k; lia | exact Hk | exact Er |].
    intros ->. now apply Hpost.
Qed.

Lemma chunk_string_pieces_witness :
  exists chunks,
    chunk_string "abcdefg" 3 = Val chunks /\
    String.concat "" chunks = "abcdefg" /\
    Forall (fun c => 1 <= Z.of_nat (String.length c) <= 3) chunks /\
    forall pre c post,
      chunks = pre ++ c :: post -> post <> [] ->
      Z.of_nat (String.length c) = 3.
Proof. apply (chunk_string_pieces "abcdefg" 3). lia. Defined.

(** ** Hex encoding *)

Lemma byte_val_bounded (b : byte) : 0 <= byte_val b < 256.
Proof. unfold byte_val. pose proof (Byte.to_N_bounded b). lia. Qed.

Lemma byte_val_inj (a b : byte) : byte_val a = byte_val b -> a = b.
Proof.
  unfold byte_val. intros H. apply N2Z.inj in H.
  pose proof (Byte.of_to_N a) as Ha. rewrite H, Byte.of_to_N in Ha.
  now injection Ha.
Qed.

Lemma hex_digit_nat_inj (m n : nat) :
  (m < 16)%nat -> (n < 16)%nat ->
  hex_digit (Z.of_nat m) = hex_digit (Z.of_nat n) -> m = n.
Proof.
  intros Hm Hn.
  do 16 (destruct m as [|m];
         [do 16 (destruct n as [|n];
                 [vm_compute; intros H; first [reflexivity | discriminate H]|]);
          lia|]).
  lia.
Qed.

Lemma hex_digit_inj (d e : Z) :
  0 <= d < 16 -> 0 <= e < 16 -> hex_digit d = hex_digit e -> d = e.
Proof.
  intros Hd He H.
  rewrite <- (Z2Nat.id d), <- (Z2Nat.id e) in H |- * by lia.
  f_equal. apply hex_digit_nat_inj; auto; lia.
Qed.

Lemma length_bytes_hex (data : bytes) :
  String.length (bytes_hex data) = (2 * List.length data)%nat.
Proof. induction data as [|b data IH]; cbn; [reflexivity | rewrite IH; lia]. Qed.

Lemma bytes_hex_inj (a : bytes) :
  forall b : bytes, bytes_hex a = bytes_hex b -> a = b.
Proof.
  induction a as [|x a IH]; intros [|y b] H; cbn in H; try discriminate;
    [reflexivity|].
  injection H as Hhi Hlo Hrest.
  pose proof (byte_val_bounded x) as Hx. pose proof (byte_val_bounded y) as Hy.
  apply hex_digit_inj in Hhi;
    [|split; [apply Z.div_pos | apply Z.div_lt_upper_bound]; lia ..].
  apply hex_digit_inj in Hlo; [|apply Z.mod_pos_bound; lia ..].
  f_equal; [|now apply IH].
  apply byte_val_inj.
  rewrite (Z.div_mod (byte_val x) 16), (Z.div_mod (byte_val y) 16) by lia.
  now rewrite Hhi, Hlo.
Qed.

(** X6: [encode_hex] writes ["0x"] and two digits per byte, and distinct
    byte strings have distinct encodings. *)
Theorem encode_hex_faithful (a b : bytes) :
  String.length (encode_hex a) = (2 + 2 * List.length a)%nat /\
  startswith (encode_hex a) "0x" = true /\
  (encode_hex a = encode_hex b -> a = b).
Proof.
  unfold encode_hex. repeat split.
  - cbn [append String.length]. now rewrite length_bytes_hex.
  - cbn [append]. unfold startswith. cbn.
    destruct (bytes_hex a); reflexivity.
  - cbn [append]. intros [= H]. now apply bytes_hex_inj.
Qed.

(** ** Fragment guesser *)

Lemma slice_whole_prefix {A : Type} (xs : list A) (n : Z) :
  0 <= n -> slice xs 0 n = firstn (Z.to_nat n) xs.
Proof.
  intros Hn. unfold slice, clamp. cbn [Z.ltb Z.compare].
  destruct (Z.ltb_spec n 0); [lia|].
  replace (Z.min 0 (Z.of_nat (List.length xs))) with 0 by lia.
  cbn [Z.to_nat skipn]. rewrite Z.sub_0_r.
  destruct (Z.le_ge_cases n (Z.of_nat (List.length xs))).
  - now rewrite Z.min_l by lia.
  - rewrite Z.min_r, Nat2Z.id by lia.
    rewrite !firstn_all2; auto; lia.
Qed.

Lemma slice_past_end {A : Type} (xs : list A) (a : Z) :
  len xs <= a -> slice xs a (len xs) = [].
Proof.
  intros Ha. unfold slice, clamp, len in *.
  destruct (Z.ltb_spec a 0); [lia|].
  destruct (Z.ltb_spec (Z.of_nat (List.length xs)) 0); [lia|].
  replace (Z.min a (Z.of_nat (List.length xs))) with (Z.of_nat (List.length xs))
    by lia.
  now rewrite Z.min_id, Z.sub_diag.
Qed.

Lemma guess_empty_none
    (decode_abi_data : list string -> bytes -> option (list value))
    (utf8_valid : bytes -> bool) (fuel : nat) (tys : list string) :
  guess_abi_encoded_data decode_abi_data utf8_valid fuel [] <> Val (Some tys).
Proof. destruct fuel; discriminate. Qed.

(** X7: calldata of at most four bytes, a selector without arguments, gives
    no fragment, whatever the ABI decoder answers. *)
Theorem guess_fragment_short
    (decode_abi_data : list string -> bytes -> option (list value))
    (utf8_valid : bytes -> bool) (fuel : nat) (calldata : bytes) :
  len calldata <= 4 ->
  guess_fragment decode_abi_data utf8_valid (S fuel) calldata = Val None.
Proof.
  intros Hlen. unfold guess_fragment.
  destruct calldata as [|b rest]; [reflexivity|].
  now rewrite slice_past_end.
Qed.

Lemma guess_fragment_short_witness :
  guess_fragment lenient_decoder (fun _ => true) 3 [x12; x34; xab; xcd]
  = Val None.
Proof.
  apply (guess_fragment_short lenient_decoder (fun _ => true) 2
           [x12; x34; xab; xcd]).
  vm_compute. discriminate.
Defined.

(** X8: a fragment is returned only for calldata longer than four bytes;
    it is ["guessed_"], the eight hex digits of the first four bytes, and
    in parentheses the comma-separated guess for the bytes after them. *)
Theorem guess_fragment_shape
    (decode_abi_data : list string -> bytes -> option (list value))
    (utf8_valid : bytes -> bool) (fuel : nat) (calldata : bytes)
    (fragment : string) :
  guess_fragment decode_abi_data utf8_valid fuel calldata = Val (Some fragment) ->
  exists params,
    4 < len calldata /\
    guess_abi_encoded_data decode_abi_data utf8_valid fuel
      (skipn 4 calldata) = Val (Some params) /\
    String.length (bytes_hex (firstn 4 calldata)) = 8%nat /\
    fragment = ("guessed_" ++ bytes_hex (firstn 4 calldata)
                ++ "(" ++ join "," params ++ ")")%string.
Proof.
  unfold guess_fragment. intros H.
  destruct calldata as [|b0 rest] eqn:Ec; [discriminate|]. rewrite <- Ec in *.
  apply bind_val in H as ([ps|] & Hg & H); [|discriminate].
  injection H as <-.
  destruct (Z.lt_ge_cases 4 (len calldata)) as [Hlen|Hlen].
  2:{ rewrite slice_past_end in Hg by lia. now apply guess_empty_none in Hg. }
  assert (slice calldata 4 (len calldata) = skipn 4 calldata) as Es.
  { unfold slice, clamp, len in *. cbn [Z.ltb Z.compare].
    destruct (Z.ltb_spec (Z.of_nat (List.length calldata)) 0); [lia|].
    replace (Z.min 4 (Z.of_nat (List.length calldata))) with 4 by lia.
    rewrite Z.min_id. change (Z.to_nat 4) with 4%nat. apply firstn_all2.
    rewrite length_skipn. lia. }
  rewrite Es in Hg. exists ps.
  rewrite slice_whole_prefix by lia. change (Z.to_nat 4) with 4%nat.
  assert (String.length (bytes_hex (firstn 4 calldata)) = 8%nat) as Hl.
  { rewrite length_bytes_hex, length_firstn. unfold len in Hlen. lia. }
  repeat split; auto.
  unfold encode_hex, format_params. cbn [append String.length Nat.sub substring].
  rewrite Nat.sub_0_r, substring_0_length. reflexivity.
Qed.

Lemma guess_fragment_shape_witness :
  exists params,
    4 < len ([x12; x34; xab; xcd] ++ word 7) /\
    guess_abi_encoded_data lenient_decoder (fun _ => true) 3
      (skipn 4 ([x12; x34; xab; xcd] ++ word 7)) = Val (Some params) /\
    String.length (bytes_hex (firstn 4 ([x12; x34; xab; xcd] ++ word 7))) = 8%nat /\
    "guessed_1234abcd(bytes32)"
    = ("guessed_" ++ bytes_hex (firstn 4 ([x12; x34; xab; xcd] ++ word 7))
       ++ "(" ++ join "," params ++ ")")%string.
Proof.
  apply (guess_fragment_shape lenient_decoder (fun _ => true) 3
           ([x12; x34; xab; xcd] ++ word 7) "guessed_1234abcd(bytes32)").
  reflexivity.
Defined.

(** ** Type merger on types that are no tuples or arrays of its own kind *)

Lemma mem_In (x : string) (xs : list string) : mem x xs = true <-> In x xs.
Proof.
  unfold mem. rewrite existsb_exists. split.
  - intros (y & Hy & E). apply String.eqb_eq in E. now subst.
  - intros H. exists x. split; [exact H | apply String.eqb_refl].
Qed.

Lemma NoDup_all_equal {A : Type} (l : list A) (a : A) :
  NoDup l -> (forall x, In x l -> x = a) -> (List.length l <= 1)%nat.
Proof.
  intros Hnd Hall. destruct l as [|x [|y l]]; cbn; try lia.
  exfalso. inversion Hnd as [|? ? Hx _]; subst. apply Hx.
  rewrite (Hall x), (Hall y); cbn; auto.
Qed.

Lemma set_of_singleton (types : list string) (t : string) :
  In t types ->
  ((List.length (set_of types) =? 1)%nat = true <->
   forall x, In x types -> x = t).
Proof.
  intros Ht. unfold set_of. rewrite Nat.eqb_eq. split.
  - intros Hl x Hx.
    destruct (nodup string_dec types) as [|y [|z l]] eqn:E; try discriminate.
    assert (In x [y]) as Hxy by (rewrite <- E; now apply nodup_In).
    assert (In t [y]) as Hty by (rewrite <- E; now apply nodup_In).
    destruct Hxy as [<-|[]], Hty as [<-|[]]. reflexivity.
  - intros Hall.
    assert (List.length (nodup string_dec types) <= 1)%nat.
    { apply (NoDup_all_equal _ t); [apply NoDup_nodup|].
      intros x Hx. apply Hall. now apply nodup_In in Hx. }
    assert (In t (nodup string_dec types)) as Hin by now apply nodup_In.
    destruct (nodup string_dec types); [contradiction | cbn in *; lia].
Qed.

(** The base of a type, as line 349 takes it. *)
Lemma merge_types_plain_base (fuel : nat) (t u : string) (types : list string) :
  (exists x, In x (t :: u :: types) /\
             hd "" (split "[" x) <> "tuple" /\ hd "" (split "[" x) <> "array") ->
  merge_types (S fuel) (t :: u :: types) = Val (merge_plain (t :: u :: types)).
Proof.
  intros (x & Hx & Ht & Ha). cbn [merge_types].
  set (bases := map (fun t => hd "" (split "[" t)) (t :: u :: types)).
  destruct (Nat.eqb_spec (List.length (set_of bases)) 1) as [E|E];
    [|reflexivity].
  assert (In (hd "" (split "[" x)) bases) as Hb
    by (unfold bases; apply in_map_iff; eauto).
  assert (hd "" (set_of bases) = hd "" (split "[" x)) as Hhd.
  { unfold set_of in *. apply (nodup_In string_dec) in Hb.
    destruct (nodup string_dec bases) as [|y [|z l]]; try discriminate.
    destruct Hb as [<-|[]]. reflexivity. }
  rewrite Hhd.
  destruct (String.eqb_spec (hd "" (split "[" x)) "tuple"); [contradiction|].
  destruct (String.eqb_spec (hd "" (split "[" x)) "array"); [contradiction|].
  reflexivity.
Qed.

(** X9: two or more types, one of which is not written with the base
    ["tuple"] or ["array"], merge without recursion: to their common type
    if they are all equal, else to ["bytes"] if it is among them, else to
    ["uint256"] if it is among them, else to ["bytes32"]. *)
Theorem merge_types_precedence (fuel : nat) (t u : string) (types : list string) :
  (exists x, In x (t :: u :: types) /\
             hd "" (split "[" x) <> "tuple" /\ hd "" (split "[" x) <> "array") ->
  exists r,
    merge_types (S fuel) (t :: u :: types) = Val r /\
    ((forall x, In x (t :: u :: types) -> x = t) /\ r = t \/
     ~ (forall x, In x (t :: u :: types) -> x = t) /\
     (In "bytes" (t :: u :: types) /\ r = "bytes" \/
      ~ In "bytes" (t :: u :: types) /\
      (In "uint256" (t :: u :: types) /\ r = "uint256" \/
       ~ In "uint256" (t :: u :: types) /\ r = "bytes32"))).
Proof.
  intros Hx. exists (merge_plain (t :: u :: types)).
  split; [now apply merge_types_plain_base|].
  unfold merge_plain.
  set (l := t :: u :: types) in *.
  assert (In t l) as Ht by now left.
  pose proof (set_of_singleton l t Ht) as Hs.
  destruct (List.length (set_of l) =? 1)%nat.
  - left. split; [now apply Hs | reflexivity].
  - right. split; [intros Hall; apply Hs in Hall; discriminate|].
    unfold set_of.
    destruct (mem "bytes" (nodup string_dec l)) eqn:Eb.
    + left. apply mem_In, nodup_In in Eb. auto.
    + right. split.
      { intros Hin. apply (nodup_In string_dec), mem_In in Hin. congruence. }
      destruct (mem "uint256" (nodup string_dec l)) eqn:Eu.
      * left. apply mem_In, nodup_In in Eu. auto.
      * right. split; [|reflexivity].
        intros Hin. apply (nodup_In string_dec), mem_In in Hin. congruence.
Qed.

Lemma merge_types_precedence_witness :
  exists r,
    merge_types 3 ["address"; "uint256"; "bytes4"] = Val r /\
    ((forall x, In x ["address"; "uint256"; "bytes4"] -> x = "address") /\
     r = "address" \/
     ~ (forall x, In x ["address"; "uint256"; "bytes4"] -> x = "address") /\
     (In "bytes" ["address"; "uint256"; "bytes4"] /\ r = "bytes" \/
      ~ In "bytes" ["address"; "uint256"; "bytes4"] /\
      (In "uint256" ["address"; "uint256"; "bytes4"] /\ r = "uint256" \/
       ~ In "uint256" ["address"; "uint256"; "bytes4"] /\ r = "bytes32"))).
Proof.
  apply (merge_types_precedence 2 "address" "uint256" ["bytes4"]).
  exists "address". split; [now left|]. split; vm_compute; discriminate.
Defined.

(** ** Consistency reducer on agreeing siblings *)

Lemma nodup_repeat (x : string) (n : nat) :
  nodup string_dec (repeat x (S n)) = [x].
Proof.
  induction n as [|n IH]; [reflexivity|].
  change (repeat x (S (S n))) with (x :: repeat x (S n)).
  cbn [nodup]. destruct (in_dec string_dec x (repeat x (S n))) as [_|H].
  - exact IH.
  - exfalso. apply H. now left.
Qed.

Lemma existsb_repeat {A : Type} (f : A -> bool) (x : A) (n : nat) :
  f x = false -> existsb f (repeat x n) = false.
Proof. intros H. induction n; cbn; [reflexivity | now rewrite H]. Qed.

Lemma append_not_bracket (a d : string) : (a ++ ")")%string <> (d ++ "[]")%string.
Proof.
  revert d. induction a as [|c a IH]; intros [|c' d] H; cbn in H.
  - discriminate.
  - injection H as _ H. destruct d; discriminate H.
  - injection H as _ H. destruct a as [|c2 a2]; cbn in H; [discriminate|].
    injection H as _ H. destruct a2; discriminate H.
  - injection H as _ H. now apply IH in H.
Qed.

Lemma substring_0_append (a b : string) :
  substring 0 (String.length a) (a ++ b) = a.
Proof.
  induction a as [|c a IH]; cbn; [now destruct b | now rewrite IH].
Qed.

Lemma drop_last2_of_array (t : string) : drop_last2 (t ++ "[]") = t.
Proof.
  unfold drop_last2. rewrite length_append. cbn [String.length].
  replace (String.length t + 2 - 2)%nat with (String.length t) by lia.
  apply substring_0_append.
Qed.

Lemma append_assoc (a b c : string) :
  ((a ++ b) ++ c)%string = (a ++ b ++ c)%string.
Proof. induction a; cbn; [reflexivity | now f_equal]. Qed.

(** Stripping the suffix of a candidate array type leaves a candidate
    type, or the empty tuple under the sentinel. *)
Lemma candidate_stripped (t : string) :
  candidate t -> endswith t "[]" = true ->
  candidate (drop_last2 t) \/ drop_last2 t = "()".
Proof.
  intros Hc Hend. destruct Hc as [| | |ts Hts|t' Ht'];
    try discriminate Hend.
  - now right.
  - exfalso. apply drop_last2_append in Hend.
    apply (append_not_bracket ("(" ++ join "," ts) (drop_last2 ("(" ++ join "," ts ++ ")"))).
    rewrite Hend. apply append_assoc.
  - left. now rewrite drop_last2_of_array.
Qed.

Lemma reducer_fuel_agree (fuel : nat) :
  forall (t : string) (n : nat),
    candidate t \/ t = "()" -> (String.length t < fuel)%nat ->
    generate_consistent_result_fuel fuel (repeat t (S n)) = Val (Some t).
Proof.
  induction fuel as [|fuel IH]; intros t n Ht Hlen; [lia|].
  assert (plain t) as Hp
    by (destruct Ht as [Ht| ->]; [now apply candidate_plain | now split]).
  change (repeat t (S n)) with (t :: repeat t n).
  rewrite reducer_fuel_plain by apply Hp.
  destruct (endswith t "[]") eqn:Hend.
  - destruct Ht as [Ht| ->]; [|discriminate].
    change (t :: repeat t n) with (repeat t (S n)).
    rewrite existsb_repeat by now rewrite Hend.
    rewrite map_repeat.
    pose proof (endswith_length _ _ Hend) as Hl2. cbn in Hl2.
    pose proof (candidate_stripped t Ht Hend) as Hs.
    rewrite IH; [|exact Hs|rewrite length_drop_last2; lia].
    cbn [bind].
    destruct (String.eqb_spec (drop_last2 t) "") as [E|_].
    + exfalso. destruct Hs as [Hs|Hs]; [|rewrite Hs in E; discriminate].
      destruct (candidate_shape _ Hs) as (_ & Hl & _).
      rewrite E in Hl. cbn in Hl. lia.
    + rewrite format_no_brace by (apply plain_drop_last2, Hp).
      cbn [bind]. now rewrite drop_last2_append.
  - cbv zeta. change (t :: repeat t n) with (repeat t (S n)).
    unfold consistency_checker, set_of. rewrite nodup_repeat.
    cbn [mem existsb orb].
    destruct (String.eqb_spec "()[]" t) as [<-|_]; [discriminate|].
    reflexivity.
Qed.

(** X10: siblings that are all the same candidate type reduce to that
    type. *)
Theorem reducer_agreeing_siblings (t : string) (n : nat) :
  candidate t ->
  generate_consistent_result (repeat t (S n)) = Val (Some t).
Proof.
  intros Ht. unfold generate_consistent_result.
  apply reducer_fuel_agree; [now left | cbn; lia].
Qed.

Lemma reducer_agreeing_siblings_witness :
  generate_consistent_result (repeat "(bytes32,bytes)[]" 3)
  = Val (Some "(bytes32,bytes)[]").
Proof.
  apply (reducer_agreeing_siblings "(bytes32,bytes)[]" 2).
  apply (cand_array "(bytes32,bytes)").
  apply (cand_tuple ["bytes32"; "bytes"]).
  apply cands_more; [apply cand_bytes32 | apply cands_one, cand_bytes].
Defined.

(** X11: when the reducer accepts a candidate list, its result is the
    first element of the list: it checks that the siblings agree and never
    builds a type of its own. *)
Theorem reducer_returns_first (r : list string) (T : string) :
  Forall candidate r ->
  generate_consistent_result r = Val (Some T) ->
  hd_error r = Some T.
Proof.
  intros Hr H.
  destruct (reducer_candidates r Hr) as [E|(t & rest & -> & E & _)];
    rewrite E in H; [discriminate|].
  now injection H as <-.
Qed.

Lemma reducer_returns_first_witness :
  hd_error ["bytes"; "()[]"; "bytes"] = Some "bytes".
Proof.
  apply (reducer_returns_first ["bytes"; "()[]"; "bytes"] "bytes");
    [repeat constructor | reflexivity].
Defined.

(** ** The sentinel among byte strings *)

Lemma checker_of_bytes (rest : list string) :
  Forall (fun p => p = "bytes" \/ p = "()[]") rest ->
  consistency_checker ("bytes" :: rest) = ["bytes"].
Proof.
  intros Hrest.
  assert (In "bytes" (consistency_checker ("bytes" :: rest))) as Hin
    by (apply consistency_checker_head; discriminate).
  assert (List.length (consistency_checker ("bytes" :: rest)) <= 1)%nat as Hle.
  { apply (NoDup_all_equal _ "bytes").
    - unfold consistency_checker, set_of. destruct (mem _ _).
      + apply set_add_nodup, set_remove_nodup, NoDup_nodup.
      + apply NoDup_nodup.
    - intros x Hx. unfold consistency_checker, set_of in Hx.
      rewrite Forall_forall in Hrest.
      destruct (mem "()[]" (nodup string_dec ("bytes" :: rest))) eqn:Em.
      + apply set_add_elim in Hx as [->|Hx]; [reflexivity|].
        apply set_remove_iff in Hx as [Hx Hne]; [|apply NoDup_nodup].
        apply nodup_In in Hx. destruct Hx as [<-|Hx]; [reflexivity|].
        destruct (Hrest _ Hx); [assumption | contradiction].
      + assert (x <> "()[]") as Hne.
        { intros ->. apply mem_In in Hx. congruence. }
        apply nodup_In in Hx. destruct Hx as [<-|Hx]; [reflexivity|].
        destruct (Hrest _ Hx); [assumption | contradiction]. }
  destruct (consistency_checker ("bytes" :: rest)) as [|x [|y l]];
    [contradiction | | cbn in Hle; lia].
  destruct Hin as [->|[]]. reflexivity.
Qed.

(** X12: the sentinel ["()[]"] counts as ["bytes"] only behind a first
    element ["bytes"]: such a list reduces to ["bytes"], while a list that
    starts with the sentinel and holds ["bytes"] is rejected. *)
Theorem reducer_sentinel_rule (rest : list string) :
  (Forall (fun p => p = "bytes" \/ p = "()[]") rest ->
   generate_consistent_result ("bytes" :: rest) = Val (Some "bytes")) /\
  (In "bytes" rest ->
   generate_consistent_result ("()[]" :: rest) = Val None).
Proof.
  split.
  - intros Hrest. unfold generate_consistent_result. cbn [hd String.length].
    rewrite reducer_fuel_plain by reflexivity.
    change (endswith "bytes" "[]") with false. cbv iota zeta.
    now rewrite checker_of_bytes.
  - intros Hin. unfold generate_consistent_result. cbn [hd String.length].
    rewrite reducer_fuel_plain by reflexivity.
    change (endswith "()[]" "[]") with true. cbv iota.
    replace (existsb (fun p => negb (endswith p "[]")) ("()[]" :: rest))
      with true; [reflexivity|].
    symmetry. apply existsb_exists. exists "bytes". split; [now right | reflexivity].
Qed.

Lemma reducer_sentinel_rule_witness :
  (Forall (fun p => p = "bytes" \/ p = "()[]") ["()[]"; "bytes"] ->
   generate_consistent_result ("bytes" :: ["()[]"; "bytes"]) = Val (Some "bytes")) /\
  (In "bytes" ["()[]"; "bytes"] ->
   generate_consistent_result ("()[]" :: ["()[]"; "bytes"]) = Val None).
Proof. apply (reducer_sentinel_rule ["()[]"; "bytes"]). Defined.

(** ** The number of types of a frame *)

Lemma resolve_all_length (rec : frame) (n depth : nat) (data : bytes) :
  forall (remaining : list slot) (acc fp : list string),
    resolve_all rec n depth data remaining acc = Val (Some fp) ->
    List.length fp = (List.length acc + List.length remaining)%nat.
Proof.
  induction remaining as [|[ty|o ml] later IH]; intros acc fp H;
    cbn [resolve_all] in H.
  - injection H as <-. cbn. lia.
  - apply IH in H. rewrite length_app in H. cbn in *. lia.
  - apply bind_val in H as ([t|] & _ & H); [|discriminate].
    apply IH in H. rewrite length_app in H. cbn in *. lia.
Qed.

Lemma resolve_tail_length
    (decode_abi_data : list string -> bytes -> option (list value))
    (rec : frame) (n depth : nat) (data : bytes) (collected : list slot)
    (expected : option Z) (l : list string) :
  resolve_tail decode_abi_data rec n depth data collected expected = Val (Some l) ->
  len l = len collected /\
  match expected with Some e => len collected = e | None => True end.
Proof.
  unfold resolve_tail. intros H.
  assert (match expected with Some e => len collected = e | None => True end) as He.
  { destruct expected as [e|]; [|exact I].
    destruct (Z.eqb_spec (len collected) e); [assumption | discriminate]. }
  split; [|exact He].
  destruct (match expected with Some e => _ | None => _ end); [discriminate|].
  apply bind_val in H as ([fp|] & Hall & H); [|discriminate].
  destruct (test_params _ _ _); [|discriminate]. injection H as <-.
  apply resolve_all_length in Hall. unfold len. cbn in Hall. lia.
Qed.

Section Arity.

Variable decode_abi_data : list string -> bytes -> option (list value).

Lemma decode_arity (fuel : nat) :
  forall depth data param_idx collected eos expected is_dyn l,
    len collected = param_idx ->
    decode_well_formed_tuple decode_abi_data fuel depth data param_idx
      collected eos expected is_dyn = Val (Some l) ->
    arity_ok param_idx eos expected l.
Proof.
  induction fuel as [|fuel IH];
    intros depth data param_idx collected eos expected is_dyn l Hc H;
    [discriminate|].
  cbn [decode_well_formed_tuple] in H. unfold decode_frame in H.
  destruct (Z.ltb_spec (param_idx * 32) eos) as [Hlt|Hge].
  - assert (forall d s eos',
              eos' <= eos ->
              gated decode_abi_data data
                (decode_well_formed_tuple decode_abi_data fuel d data
                   (param_idx + 1) (collected ++ [s]) eos' expected is_dyn)
              = Val (Some l) ->
              arity_ok param_idx eos expected l) as Hcall.
    { intros d s eos' Hle Hg. apply gated_inv, IH in Hg;
        [|rewrite len_app; cbn; lia].
      destruct Hg as [Hl He]. split; [right; lia | exact He]. }
    apply bind_val in H as ([fragment|] & Hdyn & H).
    + injection H as <-.
      destruct (try_parse_offset data (param_idx * 32)) as [off|];
        [|discriminate].
      apply bind_val in Hdyn as ([w|] & Hw & Hdyn).
      * injection Hdyn as <-.
        destruct (try_parse_length data off); [|discriminate].
        destruct (allows is_dyn true); [|discriminate].
        apply Hcall in Hw; [exact Hw | lia].
      * destruct (allows is_dyn false); [|discriminate].
        apply Hcall in Hdyn; [exact Hdyn | lia].
    + destruct is_dyn; [discriminate|].
      apply Hcall in H; [exact H | lia].
  - apply resolve_tail_length in H as [Hl He]. split; [left; lia|].
    destruct expected; [lia | exact I].
Qed.

End Arity.

(** X13: a frame that is given an expected number of elements returns
    exactly that many types. *)
Theorem decode_expected_length
    (decode_abi_data : list string -> bytes -> option (list value))
    (fuel depth : nat) (data : bytes) (eos expected : Z)
    (is_dyn : option bool) (l : list string) :
  decode_well_formed_tuple decode_abi_data fuel depth data 0 [] eos
    (Some expected) is_dyn = Val (Some l) ->
  len l = expected.
Proof.
  intros H. apply decode_arity in H; [|reflexivity]. apply H.
Qed.

Lemma decode_expected_length_witness :
  len ["bytes"; "bytes"] = 2.
Proof.
  apply (decode_expected_length lenient_decoder 8 1 string_array_region
           (len string_array_region) 2 (Some true) ["bytes"; "bytes"]).
  reflexivity.
Defined.

(** X14: a region yields at most one type per head word before the end of
    its static part: [n] types need more than [32 * (n - 1)] bytes. *)
Theorem decode_length_bound
    (decode_abi_data : list string -> bytes -> option (list value))
    (fuel depth : nat) (data : bytes) (eos : Z) (expected : option Z)
    (is_dyn : option bool) (l : list string) :
  decode_well_formed_tuple decode_abi_data fuel depth data 0 [] eos
    expected is_dyn = Val (Some l) ->
  1 <= len l /\ (len l - 1) * 32 < eos.
Proof.
  intros H.
  destruct (decode_tuple_accepted _ _ _ _ _ _ _ _ _ _ H) as [Hne _].
  assert (1 <= len l) as H1 by (destruct l; [contradiction | unfold len; cbn; lia]).
  apply decode_arity in H; [|reflexivity].
  destruct H as [[H|H] _]; lia.
Qed.

Lemma decode_length_bound_witness :
  1 <= len ["bytes32"; "bytes32"] /\
  (len ["bytes32"; "bytes32"] - 1) * 32 < len (word 7 ++ word 9).
Proof.
  apply (decode_length_bound lenient_decoder 4 0 (word 7 ++ word 9)
           (len (word 7 ++ word 9)) None None ["bytes32"; "bytes32"]).
  reflexivity.
Defined.

(** ** The exceptions of the decoder *)

Lemma bind_exc {A B : Type} (m : res A) (k : A -> res B) (e : exn) :
  bind m k = Exc e -> m = Exc e \/ exists a, m = Val a /\ k a = Exc e.
Proof.
  destruct m as [a|e'|]; cbn; intros H.
  - right. exists a. split; [reflexivity | exact H].
  - left. now injection H as ->.
  - discriminate H.
Qed.

Section Raises.

Variable decode_abi_data : list string -> bytes -> option (list value).
Variable rec : frame.

Hypothesis rec_ok : returns_candidates rec.

Hypothesis rec_raises :
  forall depth data param_idx collected eos expected is_dyn e,
    rec depth data param_idx collected eos expected is_dyn = Exc e ->
    e = TypeError.

Lemma static_parse_raises (n depth : nat) (dynamic_data : bytes)
    (words_per_element count : Z) (e : exn) :
  forall (elem_idx : Z) (acc : list string),
    static_parse rec n depth dynamic_data words_per_element count elem_idx acc
    = Exc e ->
    e = TypeError.
Proof.
  induction n as [|n IH]; intros elem_idx acc H; cbn [static_parse] in H;
    destruct (elem_idx <? count); try discriminate.
  apply bind_exc in H as [H|([[|p ps]|] & _ & H)]; try discriminate; eauto.
Qed.

Lemma resolve_dynamic_raises (n depth : nat) (data : bytes) (offset : Z)
    (maybe_length : option Z) (next : option (Z * option Z)) (e : exn) :
  resolve_dynamic rec n depth data offset maybe_length next = Exc e ->
  e = TypeError.
Proof.
  unfold resolve_dynamic. set (dd := slice data _ _).
  destruct maybe_length as [length|].
  - destruct (length =? 0); [discriminate|].
    destruct (is_bytestring dd length); [discriminate|].
    unfold resolve_array. intros H.
    apply bind_exc in H as [H|([all_results|] & Hall & H)]; try discriminate.
    + unfold array_interpretations in H.
      apply bind_exc in H as [H|(a & _ & H)]; [eauto|].
      apply bind_exc in H as [H|(b & _ & H)]; [eauto|].
      apply bind_exc in H as [H|([sp|] & _ & H)]; try discriminate.
      now apply static_parse_raises in H.
    + apply (array_interpretations_candidates rec rec_ok) in Hall.
      destruct (choose_array_type_spec all_results Hall) as (valid & _ & _ & Hs).
      destruct (sort_by_len valid);
        [rewrite Hs in H | destruct Hs as (_ & _ & T & _ & Hs); rewrite Hs in H];
        discriminate.
  - intros H.
    apply bind_exc in H as [H|(params & _ & H)]; [eauto|].
    destruct params as [[|p ps]|]; [|discriminate|];
      (destruct (len dd mod 32 =? 0); [now injection H as <-|];
       apply bind_exc in H as [H|(a & _ & H)]; [eauto|];
       apply bind_exc in H as [H|(b & _ & H)]; [eauto|];
       now injection H as <-).
Qed.

Lemma resolve_all_raises (n depth : nat) (data : bytes) (e : exn) :
  forall (remaining : list slot) (acc : list string),
    resolve_all rec n depth data remaining acc = Exc e -> e = TypeError.
Proof.
  induction remaining as [|[ty|o ml] later IH]; intros acc H;
    cbn [resolve_all] in H.
  - discriminate.
  - eauto.
  - apply bind_exc in H as [H|([t|] & _ & H)]; try discriminate; eauto.
    now apply resolve_dynamic_raises in H.
Qed.

Lemma gated_raises (data : bytes) (f : res (option (list string))) (e : exn) :
  gated decode_abi_data data f = Exc e -> f = Exc e.
Proof.
  unfold gated. intros H. apply bind_exc in H as [H|(a & _ & H)];
    [exact H | discriminate].
Qed.

Lemma decode_frame_raises (n depth : nat) (data : bytes) (param_idx : Z)
    (collected : list slot) (eos : Z) (expected : option Z)
    (is_dyn : option bool) (e : exn) :
  decode_frame decode_abi_data rec n depth data param_idx collected eos
    expected is_dyn = Exc e ->
  e = TypeError.
Proof.
  unfold decode_frame. destruct (param_idx * 32 <? eos).
  - intros H. apply bind_exc in H as [H|([fragment|] & _ & H)];
      try discriminate.
    + destruct (try_parse_offset data (param_idx * 32)) as [off|];
        [|discriminate].
      apply bind_exc in H as [H|([w|] & _ & H)]; try discriminate.
      * destruct (try_parse_length data off); [|discriminate].
        destruct (allows is_dyn true); [|discriminate].
        apply gated_raises in H. eauto.
      * destruct (allows is_dyn false); [|discriminate].
        apply gated_raises in H. eauto.
    + destruct is_dyn; [discriminate|]. apply gated_raises in H. eauto.
  - unfold resolve_tail.
    destruct (match expected with Some e => _ | None => _ end); [discriminate|].
    intros H. apply bind_exc in H as [H|([fp|] & _ & H)]; try discriminate.
    now apply resolve_all_raises in H.
Qed.

End Raises.

Lemma decode_raises_type_error
    (decode_abi_data : list string -> bytes -> option (list value))
    (fuel : nat) :
  forall (depth : nat) (data : bytes) (param_idx : Z) (collected : list slot)
         (eos : Z) (expected : option Z) (is_dyn : option bool) (e : exn),
    decode_well_formed_tuple decode_abi_data fuel depth data param_idx
      collected eos expected is_dyn = Exc e ->
    e = TypeError.
Proof.
  induction fuel as [|fuel IH]; intros depth data param_idx collected eos
    expected is_dyn e H; [discriminate|].
  cbn [decode_well_formed_tuple] in H.
  apply decode_frame_raises in H; auto.
  apply decoder_returns_candidates.
Qed.

(** X15: a run of the decoder that is not cut short ends in one of three
    ways: it returns a type list, it returns [None], or it raises
    [TypeError].  The lists it indexes are never empty and the reducer
    never raises on what the decoder hands it.  The fuel stands for the
    depth the recursion may reach (one call per head word): a run that is
    cut short is not covered. *)
Theorem decoder_raises_only_type_error
    (decode_abi_data : list string -> bytes -> option (list value))
    (data : bytes) (fuel : nat) :
  (enough_fuel (List.length data) <= fuel)%nat ->
  (exists l,
      decode_well_formed_tuple decode_abi_data fuel 0%nat data 0 [] (len data)
        None None = Val (Some l)) \/
  decode_well_formed_tuple decode_abi_data fuel 0%nat data 0 [] (len data)
    None None = Val None \/
  decode_well_formed_tuple decode_abi_data fuel 0%nat data 0 [] (len data)
    None None = Exc TypeError.
Proof.
  intros Hfuel.
  pose proof (decode_well_formed_tuple_finishes decode_abi_data data fuel Hfuel)
    as Hfin.
  destruct (decode_well_formed_tuple decode_abi_data fuel 0%nat data 0 []
              (len data) None None) as [[l|]|e|] eqn:E.
  - left. now exists l.
  - right. now left.
  - right. right. f_equal. now apply decode_raises_type_error in E.
  - contradiction.
Qed.

Lemma decoder_raises_only_type_error_witness :
  (exists l,
      decode_well_formed_tuple lenient_decoder
        (enough_fuel (List.length twin_offset_data)) 0%nat twin_offset_data 0 []
        (len twin_offset_data) None None = Val (Some l)) \/
  decode_well_formed_tuple lenient_decoder
    (enough_fuel (List.length twin_offset_data)) 0%nat twin_offset_data 0 []
    (len twin_offset_data) None None = Val None \/
  decode_well_formed_tuple lenient_decoder
    (enough_fuel (List.length twin_offset_data)) 0%nat twin_offset_data 0 []
    (len twin_offset_data) None None = Exc TypeError.
Proof.
  apply (decoder_raises_only_type_error lenient_decoder twin_offset_data). lia.
Defined.

(** ** Outcome of the decoder *)

(** X16: the decoder ends on every input: from some amount of fuel on, its
    outcome on fresh data is one and the same list, [None] or exception. *)
Theorem decoder_outcome_defined
    (decode_abi_data : list string -> bytes -> option (list value))
    (data : bytes) :
  exists (fuel : nat) (outcome : res (option (list string))),
    outcome <> OutOfFuel /\
    forall fuel',
      (fuel <= fuel')%nat ->
      decode_well_formed_tuple decode_abi_data fuel' 0%nat data 0 []
        (len data) None None = outcome.
Proof.
  exists (enough_fuel (List.length data)).
  eexists. split.
  - apply (decode_well_formed_tuple_finishes decode_abi_data data
             (enough_fuel (List.length data))). lia.
  - intros fuel' Hle.
    destruct (decode_well_formed_tuple_more_fuel decode_abi_data
                (enough_fuel (List.length data)) fuel' 0%nat data 0 []
                (len data) None None Hle) as [E|E]; [|exact E].
    exfalso. revert E.
    apply (decode_well_formed_tuple_finishes decode_abi_data data). lia.
Qed.

(** X17: every type in a list the decoder returns for a region is written
    in the grammar [T ::= "bytes32" | "bytes" | "()[]" | "(T,...,T)" |
    T"[]"]. *)
Theorem decoder_types_in_grammar
    (decode_abi_data : list string -> bytes -> option (list value))
    (fuel depth : nat) (data : bytes) (eos : Z) (expected : option Z)
    (is_dyn : option bool) (l : list string) :
  decode_well_formed_tuple decode_abi_data fuel depth data 0 [] eos
    expected is_dyn = Val (Some l) ->
  Forall candidate l.
Proof.
  apply decoder_returns_candidates. apply static_candidates_nil.
Qed.

Lemma decoder_types_in_grammar_witness :
  Forall candidate ["bytes[]"].
Proof.
  apply (decoder_types_in_grammar lenient_decoder 9 0 string_array_data
           (len string_array_data) None None ["bytes[]"]).
  reflexivity.
Defined.

(** ** Data read as static words *)

Lemma resolve_all_static (rec : frame) (n depth : nat) (data : bytes) :
  forall (tys acc : list string),
    resolve_all rec n depth data (map Static tys) acc = Val (Some (acc ++ tys)).
Proof.
  induction tys as [|ty tys IH]; intros acc; cbn [map resolve_all].
  - now rewrite app_nil_r.
  - rewrite IH, <- app_assoc. reflexivity.
Qed.

Lemma repeat_snoc {A : Type} (x : A) (n : nat) :
  repeat x n ++ [x] = repeat x (S n).
Proof. induction n; cbn; [reflexivity | now f_equal]. Qed.

Section StaticWords.

Variable decode_abi_data : list string -> bytes -> option (list value).
Variable data : bytes.

(** The number of head words of [data]. *)
Variable k : nat.
Hypothesis k_words : 32 * (Z.of_nat k - 1) < len data <= 32 * Z.of_nat k.
Hypothesis k_pos : (1 <= k)%nat.

Variable vals : list value.
Hypothesis accepted : decode_abi_data (repeat "bytes32" k) data = Some vals.

Lemma test_params_static :
  test_params decode_abi_data data (Some (repeat "bytes32" k)) = true.
Proof.
  unfold test_params. destruct k as [|k']; [lia|].
  cbn [repeat]. change ("bytes32" :: repeat "bytes32" k')
    with (repeat "bytes32" (S k')). now rewrite accepted.
Qed.

Lemma resolve_tail_static (rec : frame) (n depth : nat) :
  resolve_tail decode_abi_data rec n depth data
    (repeat (Static "bytes32") k) None
  = Val (Some (repeat "bytes32" k)).
Proof.
  unfold resolve_tail. rewrite <- map_repeat, resolve_all_static.
  cbn [bind app]. now rewrite test_params_static.
Qed.

Lemma static_words_guess (m : nat) :
  forall (j fuel depth : nat),
    (j + m = k)%nat -> (m < fuel)%nat ->
    (forall i, (j <= i < k)%nat ->
               try_parse_offset data (Z.of_nat i * 32) = None) ->
    decode_well_formed_tuple decode_abi_data fuel depth data (Z.of_nat j)
      (repeat (Static "bytes32") j) (len data) None None
    = Val (Some (repeat "bytes32" k)).
Proof.
  induction m as [|m IH]; intros j fuel depth Hj Hfuel Hprobe;
    (destruct fuel as [|fuel]; [lia|]);
    cbn [decode_well_formed_tuple]; unfold decode_frame.
  - destruct (Z.ltb_spec (Z.of_nat j * 32) (len data)); [lia|].
    replace j with k by lia. apply resolve_tail_static.
  - destruct (Z.ltb_spec (Z.of_nat j * 32) (len data)); [|lia].
    rewrite Hprobe by lia. cbn [bind].
    rewrite repeat_snoc.
    replace (Z.of_nat j + 1) with (Z.of_nat (S j)) by lia.
    rewrite IH; [|lia|lia|intros i Hi; apply Hprobe; lia].
    unfold gated. cbn [bind]. now rewrite test_params_static.
Qed.

Lemma static_words_never_none (fuel : nat) :
  forall (j depth : nat),
    (j <= k)%nat ->
    decode_well_formed_tuple decode_abi_data fuel depth data (Z.of_nat j)
      (repeat (Static "bytes32") j) (len data) None None
    <> Val None.
Proof.
  induction fuel as [|fuel IH]; intros j depth Hj; [discriminate|].
  cbn [decode_well_formed_tuple]. unfold decode_frame.
  destruct (Z.ltb_spec (Z.of_nat j * 32) (len data)) as [Hlt|Hge].
  - intros H. apply bind_val in H as ([fragment|] & _ & H); [discriminate|].
    unfold gated in H. apply bind_val in H as (a & Ha & H).
    rewrite repeat_snoc in Ha.
    replace (Z.of_nat j + 1) with (Z.of_nat (S j)) in Ha by lia.
    destruct a as [l|]; [|apply IH in Ha; [exact Ha|lia]].
    apply decode_tuple_accepted in Ha as [Hne [vs Hvs]].
    destruct l as [|p ps]; [contradiction|].
    cbn [test_params] in H. rewrite Hvs in H. discriminate.
  - replace j with k by lia. rewrite resolve_tail_static. discriminate.
Qed.

End StaticWords.

(** X18: when no head word of the data probes as an offset and the ABI
    decoder accepts the data as that many static words, the decoder
    returns one ["bytes32"] per word. *)
Theorem decode_static_words
    (decode_abi_data : list string -> bytes -> option (list value))
    (data : bytes) (k : nat) (vals : list value) (fuel depth : nat) :
  32 * (Z.of_nat k - 1) < len data <= 32 * Z.of_nat k ->
  (1 <= k)%nat ->
  (forall i, (i < k)%nat -> try_parse_offset data (Z.of_nat i * 32) = None) ->
  decode_abi_data (repeat "bytes32" k) data = Some vals ->
  (k < fuel)%nat ->
  decode_well_formed_tuple decode_abi_data fuel depth data 0 [] (len data)
    None None = Val (Some (repeat "bytes32" k)).
Proof.
  intros Hk Hpos Hprobe Hacc Hfuel.
  apply (static_words_guess decode_abi_data data k Hk Hpos vals Hacc k 0%nat);
    auto. intros i Hi. apply Hprobe. lia.
Qed.

Lemma decode_static_words_witness :
  decode_well_formed_tuple lenient_decoder 3 0%nat (word 7 ++ word 9) 0 []
    (len (word 7 ++ word 9)) None None = Val (Some (repeat "bytes32" 2)).
Proof.
  apply (decode_static_words lenient_decoder (word 7 ++ word 9) 2
           [VBytes []; VBytes []] 3 0).
  - vm_compute. split; [reflexivity | discriminate].
  - lia.
  - intros [|[|i]] Hi; [reflexivity | reflexivity | lia].
  - reflexivity.
  - lia.
Defined.

(** X19: when the ABI decoder accepts the data as static words only, the
    decoder does not answer [None] for it: with enough fuel it returns a
    type list, unless it raises [TypeError]. *)
Theorem decode_accepted_static_reading
    (decode_abi_data : list string -> bytes -> option (list value))
    (data : bytes) (k : nat) (vals : list value) (fuel : nat) :
  32 * (Z.of_nat k - 1) < len data <= 32 * Z.of_nat k ->
  (1 <= k)%nat ->
  decode_abi_data (repeat "bytes32" k) data = Some vals ->
  (enough_fuel (List.length data) <= fuel)%nat ->
  (exists l,
      decode_well_formed_tuple decode_abi_data fuel 0%nat data 0 [] (len data)
        None None = Val (Some l)) \/
  decode_well_formed_tuple decode_abi_data fuel 0%nat data 0 [] (len data)
    None None = Exc TypeError.
Proof.
  intros Hk Hpos Hacc Hfuel.
  pose proof (decode_well_formed_tuple_finishes decode_abi_data data fuel Hfuel)
    as Hfin.
  pose proof (static_words_never_none decode_abi_data data k Hk Hpos vals Hacc
                fuel 0%nat 0%nat ltac:(lia)) as Hnone.
  cbn [repeat Z.of_nat] in Hnone.
  destruct (decode_well_formed_tuple decode_abi_data fuel 0%nat data 0 []
              (len data) None None) as [[l|]|e|] eqn:E.
  - left. now exists l.
  - contradiction.
  - right. f_equal.
    now apply decode_raises_type_error in E.
  - contradiction.
Qed.

Lemma decode_accepted_static_reading_witness :
  (exists l,
      decode_well_formed_tuple lenient_decoder 
        (enough_fuel (List.length (word 32 ++ word 1 ++ padded [x41])))
        0%nat (word 32 ++ word 1 ++ padded [x41]) 0 []
        (len (word 32 ++ word 1 ++ padded [x41])) None None = Val (Some l)) \/
  decode_well_formed_tuple lenient_decoder
    (enough_fuel (List.length (word 32 ++ word 1 ++ padded [x41])))
    0%nat (word 32 ++ word 1 ++ padded [x41]) 0 []
    (len (word 32 ++ word 1 ++ padded [x41])) None None = Exc TypeError.
Proof.
  apply (decode_accepted_static_reading lenient_decoder
           (word 32 ++ word 1 ++ padded [x41]) 3
           [VBytes []; VBytes []; VBytes []]).
  - vm_compute. split; [reflexivity | discriminate].
  - lia.
  - reflexivity.
  - lia.
Defined.

(** ** Byte strings in the tail *)

Lemma slice_suffix {A : Type} (xs ys : list A) :
  slice (xs ++ ys) (len xs) (len (xs ++ ys)) = ys.
Proof.
  unfold slice, clamp, len. rewrite length_app.
  destruct (Z.ltb_spec (Z.of_nat (List.length xs)) 0); [lia|].
  destruct (Z.ltb_spec (Z.of_nat (List.length xs + List.length ys)) 0); [lia|].
  rewrite Z.min_id.
  replace (Z.min (Z.of_nat (List.length xs))
             (Z.of_nat (List.length xs + List.length ys)))
    with (Z.of_nat (List.length xs)) by lia.
  rewrite Nat2Z.id, skipn_length_app.
  apply firstn_all2. lia.
Qed.

Lemma filter_nonzero_zeros (padding : bytes) :
  Forall (fun b => byte_val b = 0) padding ->
  filter (fun v => negb (byte_val v =? 0)) padding = [].
Proof.
  induction 1 as [|b l Hb _ IH]; cbn; [reflexivity|]. now rewrite Hb.
Qed.

(** X20: a region that holds a non-empty payload followed by fewer than 32
    zero bytes that fill the last word is resolved as ["bytes"], whatever
    the payload is. *)
Theorem padded_payload_is_bytes (rec : frame) (n depth : nat) (data : bytes)
    (offset : Z) (next : option (Z * option Z)) (payload padding : bytes) :
  slice data (offset + 32)
    match next with None => len data | Some (o, _) => o end
  = payload ++ padding ->
  payload <> [] ->
  Forall (fun b => byte_val b = 0) padding ->
  len padding < 32 ->
  (len payload + len padding) mod 32 = 0 ->
  resolve_dynamic rec n depth data offset (Some (len payload)) next
  = Val (Some "bytes").
Proof.
  intros Hregion Hne Hzero Hshort Hfill.
  unfold resolve_dynamic. rewrite Hregion.
  destruct (Z.eqb_spec (len payload) 0) as [E|_].
  { destruct payload; [contradiction | discriminate E]. }
  replace (is_bytestring (payload ++ padding) (len payload)) with true;
    [reflexivity|].
  symmetry. unfold is_bytestring. rewrite slice_suffix, len_app.
  apply orb_true_iff. right.
  rewrite Hfill, Z.eqb_refl. cbn [andb].
  replace (len payload + len padding - len payload <? 32) with true
    by (symmetry; apply Z.ltb_lt; lia).
  cbn [andb].
  now rewrite filter_nonzero_zeros.
Qed.

Lemma padded_payload_is_bytes_witness :
  resolve_dynamic (decode_well_formed_tuple lenient_decoder 1) 1 0
    (word 32 ++ word 2 ++ [x41; x42] ++ repeat x00 30) 32 (Some (len [x41; x42]))
    None
  = Val (Some "bytes").
Proof.
  apply (padded_payload_is_bytes (decode_well_formed_tuple lenient_decoder 1)
           1 0 (word 32 ++ word 2 ++ [x41; x42] ++ repeat x00 30) 32 None
           [x41; x42] (repeat x00 30)).
  - reflexivity.
  - discriminate.
  - repeat constructor.
  - reflexivity.
  - reflexivity.
Defined.

(** ** Arity of the refinement *)

(** X21: the refiner returns one type per parameter when it is given one
    value per parameter. *)
Theorem refiner_keeps_arity (utf8_valid : bytes -> bool) (fuel : nat)
    (params : list string) (vals : list value) (r : list string) :
  List.length vals = List.length params ->
  infer_types utf8_valid fuel params (VSeq vals) = Val r ->
  List.length r = List.length params.
Proof.
  intros Hlen H. apply infer_types_length in H.
  rewrite H, length_combine. lia.
Qed.

Lemma refiner_keeps_arity_witness :
  List.length ["uint256"; "string"] = List.length ["bytes32"; "bytes"].
Proof.
  apply (refiner_keeps_arity (fun _ => true) 2 ["bytes32"; "bytes"]
           [VBytes (word 5); VBytes [x41]] ["uint256"; "string"]);
    reflexivity.
Defined.

(** ** Offsets point past their head word *)

(** X22: at a word-aligned position an accepted offset is word-aligned
    and lies behind the whole head word that holds it. *)
Theorem try_parse_offset_past_word (data : bytes) (pos v : Z) :
  0 <= pos -> pos mod 32 = 0 ->
  try_parse_offset data pos = Some v ->
  pos + 32 <= v /\ v < len data /\ v mod 32 = 0.
Proof.
  intros Hpos Hal H.
  apply try_parse_offset_some in H as (_ & _ & _ & Hp & Hd & Hm).
  repeat split; auto.
  assert (pos = 32 * (pos / 32)) by (apply Z.div_exact; lia).
  assert (v = 32 * (v / 32)) by (apply Z.div_exact; lia).
  lia.
Qed.

Lemma try_parse_offset_past_word_witness :
  32 + 32 <= 64 /\ 64 < len (word 7 ++ word 64 ++ word 0) /\ 64 mod 32 = 0.
Proof.
  apply (try_parse_offset_past_word (word 7 ++ word 64 ++ word 0) 32 64);
    [lia | reflexivity | reflexivity].
Defined.

(** ** Merging one type with itself *)

(** X23: copies of one type merge to that type, when the type is not
    empty and is not written with the base ["tuple"] or ["array"]. *)
Theorem merge_types_same (fuel : nat) (t : string) (n : nat) :
  t <> "" ->
  hd "" (split "[" t) <> "tuple" -> hd "" (split "[" t) <> "array" ->
  merge_types (S fuel) (repeat t (S n)) = Val t.
Proof.
  intros Hne Ht Ha. destruct n as [|n].
  - cbn. destruct (String.eqb_spec t ""); [contradiction | reflexivity].
  - change (repeat t (S (S n))) with (t :: t :: repeat t n).
    rewrite merge_types_plain_base by (exists t; split; [now left | auto]).
    unfold merge_plain, set_of.
    change (t :: t :: repeat t n) with (repeat t (S (S n))).
    now rewrite nodup_repeat.
Qed.

Lemma merge_types_same_witness :
  merge_types 2 (repeat "address" 3) = Val "address".
Proof.
  apply (merge_types_same 1 "address" 2); vm_compute; discriminate.
Defined.

(** ** Elements of an array *)

Section ElementKinds.

Variable decode_abi_data : list string -> bytes -> option (list value).

Lemma resolve_dynamic_kind (rec : frame) (n depth : nat) (data : bytes)
    (offset : Z) (maybe_length : option Z) (next : option (Z * option Z))
    (t : string) :
  resolve_dynamic rec n depth data offset maybe_length next = Val (Some t) ->
  element_kind
    match maybe_length with Some _ => true | None => false end t.
Proof.
  unfold resolve_dynamic. set (dd := slice data _ _).
  destruct maybe_length as [length|]; cbn [element_kind].
  - destruct (length =? 0); [intros [= <-]; right; now exists "()"|].
    destruct (is_bytestring dd length); [intros [= <-]; now left|].
    unfold resolve_array. intros H.
    apply bind_val in H as ([all_results|] & _ & H); [|discriminate].
    apply choose_array_type_from in H as (x & rest & _ & ->).
    right. now exists x.
  - intros H. apply bind_val in H as ([[|p ps]|] & _ & H).
    + destruct (len dd mod 32 =? 0); [discriminate|].
      apply bind_val in H as (? & _ & H). apply bind_val in H as (? & _ & H).
      discriminate.
    + injection H as <-. now exists (p :: ps).
    + destruct (len dd mod 32 =? 0); [discriminate|].
      apply bind_val in H as (? & _ & H). apply bind_val in H as (? & _ & H).
      discriminate.
Qed.

Lemma resolve_all_kind (rec : frame) (n depth : nat) (data : bytes) (b : bool) :
  forall (remaining : list slot) (acc fp : list string),
    Forall (slot_kind b) remaining -> Forall (element_kind b) acc ->
    resolve_all rec n depth data remaining acc = Val (Some fp) ->
    Forall (element_kind b) fp.
Proof.
  induction remaining as [|[ty|o ml] later IH]; intros acc fp Hs Hacc H;
    cbn [resolve_all] in H.
  - now injection H as <-.
  - inversion Hs as [|? ? Hk _]; subst. contradiction.
  - inversion Hs as [|? ? Hk Hlater]; subst.
    apply bind_val in H as ([t|] & Ht & H); [|discriminate].
    apply resolve_dynamic_kind in Ht.
    apply IH in H; auto. apply Forall_app. split; [exact Hacc|].
    constructor; [|constructor].
    destruct ml; cbn in Hk; subst b; exact Ht.
Qed.

Lemma decode_kind (fuel : nat) (b : bool) :
  forall depth data param_idx collected eos expected l,
    Forall (slot_kind b) collected ->
    decode_well_formed_tuple decode_abi_data fuel depth data param_idx
      collected eos expected (Some b) = Val (Some l) ->
    Forall (element_kind b) l.
Proof.
  induction fuel as [|fuel IH];
    intros depth data param_idx collected eos expected l Hc H; [discriminate|].
  cbn [decode_well_formed_tuple] in H. unfold decode_frame in H.
  destruct (param_idx * 32 <? eos).
  - apply bind_val in H as ([fragment|] & Hdyn & H); [|discriminate].
    injection H as <-.
    destruct (try_parse_offset data (param_idx * 32)) as [off|];
      [|discriminate].
    apply bind_val in Hdyn as ([w|] & Hw & Hdyn).
    + injection Hdyn as <-.
      destruct (try_parse_length data off); [|discriminate].
      destruct b; cbn [allows Bool.eqb] in Hw; [|discriminate].
      apply gated_inv, IH in Hw; [exact Hw|].
      apply Forall_app. split; [exact Hc | now repeat constructor].
    + destruct b; cbn [allows Bool.eqb] in Hdyn; [discriminate|].
      apply gated_inv, IH in Hdyn; [exact Hdyn|].
      apply Forall_app. split; [exact Hc | now repeat constructor].
  - unfold resolve_tail in H.
    destruct (match expected with Some e => _ | None => _ end); [discriminate|].
    apply bind_val in H as ([fp|] & Hall & H); [|discriminate].
    destruct (test_params _ _ _); [|discriminate]. injection H as <-.
    now apply (resolve_all_kind _ _ _ _ b) in Hall.
Qed.

End ElementKinds.

(** X24: a region decoded as the elements of an array holds elements of
    one kind: with [is_dynamic_array_element] true every type is ["bytes"]
    or an array type ["T[]"], with it false every type is a tuple
    ["(...)"]; no static word is taken. *)
Theorem decode_element_kinds
    (decode_abi_data : list string -> bytes -> option (list value))
    (fuel depth : nat) (data : bytes) (eos : Z) (expected : option Z)
    (b : bool) (l : list string) :
  decode_well_formed_tuple decode_abi_data fuel depth data 0 [] eos
    expected (Some b) = Val (Some l) ->
  Forall (element_kind b) l.
Proof. apply decode_kind. constructor. Qed.

Lemma decode_element_kinds_witness :
  Forall (element_kind false) ["(bytes32,bytes32)"; "(bytes32,bytes32)"].
Proof.
  apply (decode_element_kinds lenient_decoder 8 1 string_array_region
           (len string_array_region) (Some 2) false
           ["(bytes32,bytes32)"; "(bytes32,bytes32)"]).
  reflexivity.
Defined.

(** ** A slot with a candidate list is resolved *)

(** In a region decoded as array elements every head word is an offset
    behind itself, so the types of a returned list fit before the end of
    the data. *)
Lemma decode_elements_fit
    (decode_abi_data : list string -> bytes -> option (list value))
    (fuel : nat) :
  forall (depth : nat) (data : bytes) (param_idx : Z) (collected : list slot)
         (eos : Z) (expected : option Z) (b : bool) (l : list string),
    len collected = param_idx ->
    decode_well_formed_tuple decode_abi_data fuel depth data param_idx
      collected eos expected (Some b) = Val (Some l) ->
    len l = param_idx \/ len l * 32 < len data.
Proof.
  induction fuel as [|fuel IH];
    intros depth data param_idx collected eos expected b l Hc H;
    [discriminate|].
  cbn [decode_well_formed_tuple] in H. unfold decode_frame in H.
  destruct (Z.ltb_spec (param_idx * 32) eos) as [Hlt|Hge].
  - apply bind_val in H as ([fragment|] & Hdyn & H); [|discriminate].
    injection H as ->.
    destruct (try_parse_offset data (param_idx * 32)) as [off|] eqn:Eoff;
      [|discriminate].
    apply try_parse_offset_some in Eoff as (_ & _ & _ & Hpos & Hend & Hmod).
    assert (param_idx * 32 + 32 <= off) as Hword.
    { pose proof (Z.div_mod off 32 ltac:(lia)) as Hd. rewrite Hmod in Hd. lia. }
    assert (forall d s eos',
              gated decode_abi_data data
                (decode_well_formed_tuple decode_abi_data fuel d data
                   (param_idx + 1) (collected ++ [s]) eos' expected (Some b))
              = Val (Some l) ->
              len l = param_idx \/ len l * 32 < len data) as Hcall.
    { intros d s eos' Hg. apply gated_inv, IH in Hg;
        [|rewrite len_app; cbn; lia].
      right. lia. }
    apply bind_val in Hdyn as ([w|] & Hw & Hdyn).
    + injection Hdyn as <-.
      destruct (try_parse_length data off); [|discriminate].
      destruct (allows (Some b) true); [|discriminate].
      now apply Hcall in Hw.
    + destruct (allows (Some b) false); [|discriminate].
      now apply Hcall in Hdyn.
  - apply resolve_tail_length in H as [Hl _]. left. lia.
Qed.

Section WholeWords.

Variable decode_abi_data : list string -> bytes -> option (list value).

Hypothesis static_ok : accepts_static_words decode_abi_data.

(** A window of whole words always has the reading as static words, so
    its decoding is never [None]. *)
Lemma window_never_none (fuel depth : nat) (window : bytes) (k : nat) :
  (1 <= k)%nat -> len window = 32 * Z.of_nat k ->
  decode_well_formed_tuple decode_abi_data fuel depth window 0 []
    (len window) None None <> Val None.
Proof.
  intros Hk Hlen.
  destruct (static_ok k window Hk Hlen) as [vals Hvals].
  apply (static_words_never_none decode_abi_data window k ltac:(lia) Hk vals
           Hvals fuel 0%nat depth).
  lia.
Qed.

Lemma static_parse_never_none (fuel depth : nat) (dynamic_data : bytes)
    (words_per_element count : Z) :
  1 <= words_per_element ->
  count * words_per_element * 32 <= len dynamic_data ->
  forall (n : nat) (elem_idx : Z) (acc : list string),
    0 <= elem_idx ->
    static_parse (decode_well_formed_tuple decode_abi_data fuel) n depth
      dynamic_data words_per_element count elem_idx acc <> Val None.
Proof.
  intros Hw Hfit.
  induction n as [|n IH]; intros elem_idx acc Hidx; cbn [static_parse];
    destruct (Z.ltb_spec elem_idx count) as [Hlt|Hge]; try discriminate.
  set (window := slice dynamic_data (elem_idx * words_per_element * 32)
                   ((elem_idx + 1) * words_per_element * 32)).
  assert (len window = words_per_element * 32) as Hlen.
  { unfold window. rewrite len_slice by nia.
    assert ((elem_idx + 1) * words_per_element * 32
            <= count * words_per_element * 32) by nia.
    lia. }
  rewrite <- Hlen.
  destruct (decode_well_formed_tuple decode_abi_data fuel (S depth) window 0 []
              (len window) None None) as [[[|p ps]|]|e|] eqn:E;
    cbn [bind]; try discriminate.
  - now apply decode_tuple_accepted in E as [Hne _].
  - apply IH. lia.
  - exfalso. revert E.
    apply (window_never_none fuel (S depth) window (Z.to_nat words_per_element));
      lia.
Qed.

End WholeWords.

Lemma enough_fuel_step (s : nat) :
  (Nat.max (enough_fuel s) (S s) < enough_fuel (S s))%nat.
Proof. cbn [enough_fuel]. lia. Qed.


